(** * Tic-tac-toe (App.js): board queries, minimax engine, game controller

    A shallow embedding of [src/frontend_react_js/src/App.js]:
    - [calculateWinner], [isDraw]                 (App.js 73-100)
    - [computeAIMove] with its inner [minimax]    (App.js 106-146)
    - the [App] component's state, its handlers and its two game effects
      (App.js 251-354).

    JavaScript arrays are lists of slots; an assignment past the end
    extends the array the way JavaScript does.  The engine mutates the
    array it is given and undoes each tentative move, so [minimax] and
    [computeAIMove] thread the array through and return it.  The component
    is a state machine over events: a handler queues state updates, React
    commits them, and the game-over effect runs when [squares] was
    replaced. *)

From stdpp Require Import base list.
From Stdlib Require Import ZArith Lia.
From Stdlib Require String.
Import String.StringSyntax.
Delimit Scope string_scope with string.

Open Scope Z_scope.
Open Scope nat_scope.

(** ** JavaScript arrays of cells *)

Inductive player := X | O.

(** What an array position holds: a hole (an index below [length] that was
    never assigned), a falsy value ([null], or [undefined] stored as a value;
    the program never tells the two apart) or one of the strings "X" / "O". *)
Inductive slot := Hole | Nil | Mark (p : player).

Abbreviation array := (list slot).

#[global] Instance player_eq_dec : EqDecision player.
Proof. solve_decision. Defined.

#[global] Instance slot_eq_dec : EqDecision slot.
Proof. solve_decision. Defined.

Definition player_eqb (p q : player) : bool :=
  match p, q with
  | X, X | O, O => true
  | _, _ => false
  end.

(** [a === b] on the values read from cells ([None] is a falsy read). *)
Definition cell_eqb (c d : option player) : bool :=
  match c, d with
  | Some p, Some q => player_eqb p q
  | None, None => true
  | _, _ => false
  end.

(** Truthiness of a value read from a cell. *)
Definition truthy (c : option player) : bool :=
  match c with Some _ => true | None => false end.

(** [squares[i]]: the symbol stored at [i]; a hole, a falsy value and an index
    past the end all read as falsy. *)
Definition get (squares : array) (i : nat) : option player :=
  match squares !! i with
  | Some (Mark p) => Some p
  | _ => None
  end.

(** [squares[i] = v]: in range it overwrites; past the end JavaScript grows
    the array, leaving holes between the old end and [i]. *)
Definition assign (squares : array) (i : nat) (v : slot) : array :=
  if i <? length squares then <[i := v]> squares
  else squares ++ replicate (i - length squares) Hole ++ [v].

(** [Array(9).fill(null)] *)
Definition emptyBoard : array := replicate 9 Nil.

(** [squares.slice()] keeps holes; [[...squares]] iterates, so a hole is
    copied as [undefined]. *)
Definition slice (squares : array) : array := squares.

Definition spread (squares : array) : array :=
  (fun s => match s with Hole => Nil | _ => s end) <$> squares.

(** [squares.every((v) => v)] and [board.every(Boolean)]: [every] skips
    holes, and fails on the first falsy value. *)
Definition every (squares : array) : bool :=
  forallb (fun s => match s with Nil => false | _ => true end) squares.

(** [squares.findIndex((v) => !v)]: visits every index below [length], holes
    included; -1 when nothing is falsy. *)
Fixpoint findIndex_from (k : Z) (squares : array) : Z :=
  match squares with
  | [] => (-1)%Z
  | Mark _ :: rest => findIndex_from (k + 1)%Z rest
  | _ :: _ => k
  end.

Definition findIndex (squares : array) : Z := findIndex_from 0%Z squares.

(** ** Board model (App.js 73-100) *)

Definition line := (nat * nat * nat)%type.

Definition lines : list line :=
  [ (0, 1, 2); (3, 4, 5); (6, 7, 8);
    (0, 3, 6); (1, 4, 7); (2, 5, 8);
    (0, 4, 8); (2, 4, 6) ].

(** The test of the [for] loop's body on one line. *)
Definition lineWon (squares : array) (l : line) : bool :=
  let '(a, b, c) := l in
  match get squares a with
  | Some _ => cell_eqb (get squares a) (get squares b)
              && cell_eqb (get squares a) (get squares c)
  | None => false
  end.

(** [for (const line of lines) { ... return [squares[a], line]; }
    return [null, null];] *)
Fixpoint scanLines (squares : array) (ls : list line)
  : option player * option line :=
  match ls with
  | [] => (None, None)
  | l :: rest =>
      if lineWon squares l then (get squares (fst (fst l)), Some l)
      else scanLines squares rest
  end.

Definition calculateWinner (squares : array) : option player * option line :=
  scanLines squares lines.

Definition isDraw (squares : array) : bool :=
  every squares && negb (truthy (fst (calculateWinner squares))).

(** ** Search engine (App.js 106-146) *)

(** JavaScript numbers as the engine uses them: the two infinities that seed
    [best] and [bestScore], and integers. *)
Inductive num := NegInf | Fin (z : Z) | PosInf.

(** [a > b] *)
Definition num_gt (a b : num) : bool :=
  match a, b with
  | NegInf, _ => false
  | _, PosInf => false
  | Fin x, Fin y => (y <? x)%Z
  | _, _ => true
  end.

Definition num_max (a b : num) : num := if num_gt b a then b else a.
Definition num_min (a b : num) : num := if num_gt a b then b else a.

(** [const human = aiPlayer === "X" ? "O" : "X"] *)
Definition humanOf (aiPlayer : player) : player :=
  match aiPlayer with X => O | O => X end.

(** The indices visited by [for (let i = 0; i < 9; i++)]. *)
Definition indices : list nat := seq 0 9.

(** Number of cells the engine's loops still see as empty; it bounds the
    depth of the recursion, since every recursive call fills one of them. *)
Definition emptyCount (board : array) : nat :=
  length (filter (fun i => truthy (get board i) = false) indices).

(** The inner [minimax] closure, which captures [aiPlayer] and [human].  It
    writes the tentative move into [board], recurses, and writes [null]
    back, so the array is threaded through and returned with the score.
    [fuel] bounds the recursion depth. *)
Fixpoint minimax_go (fuel : nat) (aiPlayer : player)
    (board : array) (depth : Z) (isMax : bool) : num * array :=
  let human := humanOf aiPlayer in
  let winner := fst (calculateWinner board) in
  if cell_eqb winner (Some aiPlayer) then (Fin (10 - depth)%Z, board)
  else if cell_eqb winner (Some human) then (Fin (depth - 10)%Z, board)
  else if every board then (Fin 0%Z, board)
  else
    match fuel with
    | 0 => (Fin 0%Z, board)
    | S fuel' =>
        fold_left
          (fun (st : num * array) (i : nat) =>
             let '(best, board) := st in
             if truthy (get board i) then (best, board)
             else
               let board := assign board i (Mark (if isMax then aiPlayer else human)) in
               let '(score, board) :=
                 minimax_go fuel' aiPlayer board (depth + 1)%Z (negb isMax) in
               let board := assign board i Nil in
               ((if isMax then num_max best score else num_min best score), board))
          indices
          ((if isMax then NegInf else PosInf), board)
    end.

Definition minimax (aiPlayer : player) (board : array) (depth : Z) (isMax : bool)
  : num * array :=
  minimax_go (S (emptyCount board)) aiPlayer board depth isMax.

(** [computeAIMove(squares, aiPlayer)]: the chosen index (or -1) and the
    array as the call leaves it. *)
Definition computeAIMove (squares : array) (aiPlayer : player) : Z * array :=
  let '(bestScore, move, squares) :=
    fold_left
      (fun (st : num * Z * array) (i : nat) =>
         let '(bestScore, move, squares) := st in
         if truthy (get squares i) then (bestScore, move, squares)
         else
           let squares := assign squares i (Mark aiPlayer) in
           let '(score, squares) := minimax aiPlayer squares 0%Z false in
           let squares := assign squares i Nil in
           if num_gt score bestScore then (score, Z.of_nat i, squares)
           else (bestScore, move, squares))
      indices
      (NegInf, (-1)%Z, squares) in
  let move := if (move =? -1)%Z then findIndex squares else move in
  (move, squares).

(** ** Game controller: the [App] component (App.js 251-354) *)

Module App.

(** ["pvp"] and ["ai"] *)
Inductive Mode := pvp | ai.

(** ["ongoing"], ["win"], ["draw"] *)
Inductive Status := ongoing | win | draw.

(** The score object [{ X, O, D }].  The counters are JavaScript numbers
    holding non-negative integers, on which [+ 1] is exact below 2^53;
    they are modelled as unbounded naturals. *)
Record Score := mkScore { scoreX : N; scoreO : N; scoreD : N }.

(** The component's [useState] cells ([disableAnim] only drives an
    animation and is left out); [winner] and [winningLine] are recomputed
    from [squares] at every render. *)
Record State := mkState {
  mode : Mode;
  squares : array;
  xIsNext : bool;
  status : Status;
  score : Score
}.

Definition winner (s : State) : option player := fst (calculateWinner (squares s)).
Definition winningLine (s : State) : option line := snd (calculateWinner (squares s)).

(** A call of one of the state setters.  A handler or an effect queues its
    calls; React applies them in order and renders again. *)
Inductive update :=
| setMode (v : Mode)
| setSquares (v : array)
| setXIsNext (v : bool)
| setStatus (v : Status)
| setScore (f : Score -> Score).

Definition apply (s : State) (u : update) : State :=
  match u with
  | setMode v => mkState v (squares s) (xIsNext s) (status s) (score s)
  | setSquares v => mkState (mode s) v (xIsNext s) (status s) (score s)
  | setXIsNext v => mkState (mode s) (squares s) v (status s) (score s)
  | setStatus v => mkState (mode s) (squares s) (xIsNext s) v (score s)
  | setScore f => mkState (mode s) (squares s) (xIsNext s) (status s) (f (score s))
  end.

Definition commit (s : State) (us : list update) : State := fold_left apply us s.

(** Every [setSquares] call in the component passes a freshly built array,
    so it changes the [squares] dependency of the effects. *)
Definition replacesSquares (us : list update) : bool :=
  existsb (fun u => match u with setSquares _ => true | _ => false end) us.

Definition mode_eqb (a b : Mode) : bool :=
  match a, b with pvp, pvp | ai, ai => true | _, _ => false end.

Definition status_eqb (a b : Status) : bool :=
  match a, b with
  | ongoing, ongoing | win, win | draw, draw => true
  | _, _ => false
  end.

(** [handleSquareClick(i, isAI = false)] (App.js 328-336).  The index is an
    array index: a natural number, on the board (0-8) or past it, where the
    write grows the array.  An argument that is no array index (negative or
    fractional) would name a property of the array object instead of a cell;
    such calls are not modelled. *)
Definition handleSquareClick (s : State) (i : nat) (isAI : bool) : list update :=
  if truthy (get (squares s) i) || truthy (winner s) || status_eqb (status s) draw
  then []
  else if mode_eqb (mode s) ai && negb (xIsNext s) && negb isAI
  then []
  else
    let squaresNew := slice (squares s) in
    let squaresNew := assign squaresNew i (Mark (if xIsNext s then X else O)) in
    [setSquares squaresNew; setXIsNext (negb (xIsNext s))].

(** [handleRestart()] (App.js 339-343) *)
Definition handleRestart : list update :=
  [setSquares emptyBoard; setXIsNext true].

(** [handleReset()] (App.js 346-348) *)
Definition handleReset : list update :=
  [setScore (fun _ => mkScore 0 0 0)].

(** [handleModeChange(val)] (App.js 351-354) *)
Definition handleModeChange (val : Mode) : list update :=
  setMode val :: handleRestart.

(** [{ ...prev, [winner]: (prev[winner] || 0) + 1 }] *)
Definition bumpWinner (w : player) (prev : Score) : Score :=
  match w with
  | X => mkScore (scoreX prev + 1) (scoreO prev) (scoreD prev)
  | O => mkScore (scoreX prev) (scoreO prev + 1) (scoreD prev)
  end.

(** [{ ...prev, D: (prev.D || 0) + 1 }] *)
Definition bumpDraw (prev : Score) : Score :=
  mkScore (scoreX prev) (scoreO prev) (scoreD prev + 1).

(** The "check for game over" effect, with dependencies
    [[squares, winner]] (App.js 289-305). *)
Definition gameOverEffect (s : State) : list update :=
  match winner s with
  | Some w => [setStatus win; setScore (bumpWinner w)]
  | None =>
      if isDraw (squares s) then [setStatus draw; setScore bumpDraw]
      else [setStatus ongoing]
  end.

(** The guard of the computer-move effect (App.js 309-314): a timer is
    pending exactly in the renders where it holds, because the effect's
    cleanup clears the timer when [squares], [mode], [xIsNext] or
    [winner] change. *)
Definition aiTimerArmed (s : State) : bool :=
  mode_eqb (mode s) ai && negb (truthy (winner s))
  && negb (isDraw (squares s)) && negb (xIsNext s).

(** The timer's callback (App.js 317-318).  [handleSquareClick] is modelled
    on array indices only; [None] marks a negative [move], which would
    store a property on the array object instead of an element. *)
Definition aiTimeout (s : State) : option (list update) :=
  let move := fst (computeAIMove (spread (squares s)) O) in
  if (move <? 0)%Z then None
  else Some (handleSquareClick s (Z.to_nat move) true).

(** What can happen to the component: the four user intents and the
    expiry of the computer-move timer. *)
Inductive event :=
| Click (i : nat)
| Restart
| ResetScores
| ModeChange (val : Mode)
| AITimeout.

(** The updates an event queues.  The timer only exists while its guard
    holds, so its expiry in any other state runs nothing. *)
Definition handle (s : State) (ev : event) : option (list update) :=
  match ev with
  | Click i => Some (handleSquareClick s i false)
  | Restart => Some handleRestart
  | ResetScores => Some handleReset
  | ModeChange val => Some (handleModeChange val)
  | AITimeout => if aiTimerArmed s then aiTimeout s else Some []
  end.

(** One event: the handler's updates are committed, and when they replaced
    [squares] the game-over effect runs on the new render and its updates
    are committed too. *)
Definition dispatch (s : State) (ev : event) : option State :=
  match handle s ev with
  | None => None
  | Some us =>
      let s1 := commit s us in
      Some (if replacesSquares us then commit s1 (gameOverEffect s1) else s1)
  end.

Fixpoint run (s : State) (evs : list event) : option State :=
  match evs with
  | [] => Some s
  | ev :: rest =>
      match dispatch s ev with
      | Some s' => run s' rest
      | None => None
      end
  end.

(** The state after mounting, with the score read from storage. *)
Definition initial (stored : Score) : State :=
  mkState pvp emptyBoard true ongoing stored.

End App.

(** ** Games played with the engine *)

(** The game goes on: no winner and no draw (the guard under which the
    controller asks the engine for a move). *)
Definition gameOn (board : array) : bool :=
  negb (truthy (fst (calculateWinner board))) && negb (isDraw board).

(** [reaches aiPlayer (b, t) (b', t')]: from board [b] with [t] to move, play
    can arrive at [b'] with [t'] to move when every move of [aiPlayer] is the
    engine's answer on a copy of the board and the other side plays any empty
    cell. *)
Inductive reaches (aiPlayer : player) : array * player -> array * player -> Prop :=
| reaches_here pos : reaches aiPlayer pos pos
| reaches_engine board move pos :
    gameOn board = true ->
    fst (computeAIMove (spread board) aiPlayer) = Z.of_nat move ->
    reaches aiPlayer (assign board move (Mark aiPlayer), humanOf aiPlayer) pos ->
    reaches aiPlayer (board, aiPlayer) pos
| reaches_opponent board i pos :
    gameOn board = true ->
    i < 9 -> get board i = None ->
    reaches aiPlayer (assign board i (Mark (humanOf aiPlayer)), aiPlayer) pos ->
    reaches aiPlayer (board, humanOf aiPlayer) pos.

(** The engine playing both sides: the side to move asks the engine for a
    move with its own symbol, until the game is over. *)
Fixpoint selfPlay (plies : nat) (board : array) (turn : player) : array :=
  match plies with
  | 0 => board
  | S plies' =>
      if gameOn board then
        let move := fst (computeAIMove (spread board) turn) in
        if (move <? 0)%Z then board
        else selfPlay plies' (assign board (Z.to_nat move) (Mark turn)) (humanOf turn)
      else board
  end.

(** ** Predicates used in the statements *)

(** An array without holes that covers the indices 0-8: what the engine is
    handed ([spread] fills holes). *)
Definition solid (board : array) : Prop :=
  9 <= length board /\ Forall (fun s => s <> Hole) board.

(** A board of the data model: exactly nine cells, each empty, X or O. *)
Definition isBoard (board : array) : bool :=
  (length board =? 9)
  && forallb (fun s => match s with Hole => false | _ => true end) board.

Definition board9 (board : array) : Prop := isBoard board = true.

(** The body of [minimax]'s loop with the board left out: the score of the
    move at [i], computed by [rec], is merged into [best]. *)
Definition mergeMove (aiPlayer : player) (rec : array -> Z -> bool -> num)
    (board : array) (depth : Z) (isMax : bool) (best : num) (i : nat) : num :=
  if truthy (get board i) then best
  else
    let score :=
      rec (assign board i (Mark (if isMax then aiPlayer else humanOf aiPlayer)))
          (depth + 1)%Z (negb isMax) in
    if isMax then num_max best score else num_min best score.

(** What [minimax] computes once its loop is read as a fold of [mergeMove]. *)
Definition minimaxBody (aiPlayer : player) (rec : array -> Z -> bool -> num)
    (board : array) (depth : Z) (isMax : bool) : num :=
  let winner := fst (calculateWinner board) in
  if cell_eqb winner (Some aiPlayer) then Fin (10 - depth)%Z
  else if cell_eqb winner (Some (humanOf aiPlayer)) then Fin (depth - 10)%Z
  else if every board then Fin 0%Z
  else fold_left (mergeMove aiPlayer rec board depth isMax) indices
         (if isMax then NegInf else PosInf).

(** The score [computeAIMove] gives the move at [i]. *)
Definition moveScore (aiPlayer : player) (board : array) (i : nat) : num :=
  fst (minimax aiPlayer (assign board i (Mark aiPlayer)) 0%Z false).

(** The body of [computeAIMove]'s loop with the board left out: the move at
    [i], of score [score i], replaces the best one so far when it scores
    strictly more. *)
Definition pickMove (score : nat -> num) (board : array)
    (st : num * Z) (i : nat) : num * Z :=
  if truthy (get board i) then st
  else if num_gt (score i) (fst st) then (score i, Z.of_nat i) else st.

(** Player [p] holds the three cells of line [l]. *)
Definition ownsLine (squares : array) (p : player) (l : line) : Prop :=
  get squares (fst (fst l)) = Some p
  /\ get squares (snd (fst l)) = Some p
  /\ get squares (snd l) = Some p.

(** Number of cells of the array holding [p]. *)
Definition countMark (p : player) (squares : array) : nat :=
  length (filter (fun s => s = Mark p) squares).

(** The status the game-over effect derives from a board. *)
Definition statusOf (squares : array) : App.Status :=
  match fst (calculateWinner squares) with
  | Some _ => App.win
  | None => if isDraw squares then App.draw else App.ongoing
  end.

(** The game-over effect has run on the current board. *)
Definition settled (s : App.State) : Prop :=
  App.status s = statusOf (App.squares s).

(** The game is over: the board has a winner or is a draw. *)
Definition terminal (s : App.State) : bool :=
  negb (App.status_eqb (statusOf (App.squares s)) App.ongoing).

(** A move attempt: a click on a cell or the computer's timer. *)
Definition isMove (ev : App.event) : Prop :=
  match ev with
  | App.Click _ | App.AITimeout => True
  | _ => False
  end.

(** ** Evaluating the engine quickly

    The same computations written for a board taken apart into its nine
    cells, so that positions can be evaluated by the thousand; they are
    proved equal to the embedding of the engine further down. *)

(** The owner of a line whose three cells hold the same symbol. *)
Definition owner3 (a b c : slot) : option player :=
  match a, b, c with
  | Mark X, Mark X, Mark X => Some X
  | Mark O, Mark O, Mark O => Some O
  | _, _, _ => None
  end.

Definition quickWinner (board : array) : option player :=
  match board with
  | [c0; c1; c2; c3; c4; c5; c6; c7; c8] =>
      match owner3 c0 c1 c2 with Some p => Some p | None =>
      match owner3 c3 c4 c5 with Some p => Some p | None =>
      match owner3 c6 c7 c8 with Some p => Some p | None =>
      match owner3 c0 c3 c6 with Some p => Some p | None =>
      match owner3 c1 c4 c7 with Some p => Some p | None =>
      match owner3 c2 c5 c8 with Some p => Some p | None =>
      match owner3 c0 c4 c8 with Some p => Some p | None =>
      match owner3 c2 c4 c6 with Some p => Some p | None =>
      None
      end end end end end end end end
  | _ => fst (calculateWinner board)
  end.

Definition quickFull (board : array) : bool :=
  match board with
  | [Mark _; Mark _; Mark _; Mark _; Mark _; Mark _; Mark _; Mark _; Mark _] => true
  | [_; _; _; _; _; _; _; _; _] => false
  | _ => every board
  end.

(** One turn of the loop of [minimax]: a cell that holds a mark is skipped,
    an empty one has the score of [child], the board with the mover's symbol
    there, merged into [best]. *)
Definition quickStep (merge : num -> num -> num) (rec : array -> num)
    (c : slot) (child : array) (best : num) : num :=
  match c with
  | Mark _ => best
  | _ => merge best (rec child)
  end.

(** The loop of [minimax] over the nine cells, [rec] scoring the board after
    a move of [mover] and [merge] being [Math.max] or [Math.min]. *)
Definition quickLoop (mover : player) (merge : num -> num -> num)
    (rec : array -> num) (board : array) (best : num) : num :=
  match board with
  | [c0; c1; c2; c3; c4; c5; c6; c7; c8] =>
      quickStep merge rec c8
        [c0; c1; c2; c3; c4; c5; c6; c7; Mark mover]
        (quickStep merge rec c7
        [c0; c1; c2; c3; c4; c5; c6; Mark mover; c8]
        (quickStep merge rec c6
        [c0; c1; c2; c3; c4; c5; Mark mover; c7; c8]
        (quickStep merge rec c5
        [c0; c1; c2; c3; c4; Mark mover; c6; c7; c8]
        (quickStep merge rec c4
        [c0; c1; c2; c3; Mark mover; c5; c6; c7; c8]
        (quickStep merge rec c3
        [c0; c1; c2; Mark mover; c4; c5; c6; c7; c8]
        (quickStep merge rec c2
        [c0; c1; Mark mover; c3; c4; c5; c6; c7; c8]
        (quickStep merge rec c1
        [c0; Mark mover; c2; c3; c4; c5; c6; c7; c8]
        (quickStep merge rec c0
        [Mark mover; c1; c2; c3; c4; c5; c6; c7; c8] best))))))))
  | _ => best
  end.

Fixpoint quickMinimax (fuel : nat) (aiPlayer : player)
    (board : array) (depth : Z) (isMax : bool) : num :=
  match quickWinner board with
  | Some w =>
      if player_eqb w aiPlayer then Fin (10 - depth)%Z else Fin (depth - 10)%Z
  | None =>
      if quickFull board then Fin 0%Z
      else
        match fuel with
        | 0 => Fin 0%Z
        | S fuel' =>
            quickLoop (if isMax then aiPlayer else humanOf aiPlayer)
              (if isMax then num_max else num_min)
              (fun b => quickMinimax fuel' aiPlayer b (depth + 1)%Z (negb isMax))
              board (if isMax then NegInf else PosInf)
        end
  end.

(** The move [computeAIMove] returns, with the scores taken from
    [quickMinimax]. *)
Definition quickMove (aiPlayer : player) (board : array) : Z :=
  let score := fun i =>
    let child := assign board i (Mark aiPlayer) in
    quickMinimax (S (emptyCount child)) aiPlayer child 0%Z false in
  let move := snd (fold_left (pickMove score board) indices (NegInf, (-1)%Z)) in
  if (move =? -1)%Z then findIndex board else move.

(** [selfPlay] with the moves taken from [quickMove]. *)
Fixpoint quickSelfPlay (plies : nat) (board : array) (turn : player) : array :=
  match plies with
  | 0 => board
  | S plies' =>
      if gameOn board then
        let move := quickMove turn board in
        if (move <? 0)%Z then board
        else quickSelfPlay plies' (assign board (Z.to_nat move) (Mark turn)) (humanOf turn)
      else board
  end.

(** Exhaustive check of a game against the engine: [humanOf aiPlayer] has no
    line on [board], and, while the game goes on, the engine answers (as
    evaluated by [quickMove]) with an empty cell and the same holds after its
    answer, respectively after every move open to the opponent. *)
Fixpoint safe (plies : nat) (aiPlayer : player) (board : array) (turn : player)
  : bool :=
  negb (cell_eqb (fst (calculateWinner board)) (Some (humanOf aiPlayer)))
  && (if gameOn board then
        match plies with
        | 0 => false
        | S plies' =>
            if player_eqb turn aiPlayer then
              let move := quickMove aiPlayer board in
              (0 <=? move)%Z && (move <? 9)%Z
              && negb (truthy (get board (Z.to_nat move)))
              && safe plies' aiPlayer
                   (assign board (Z.to_nat move) (Mark aiPlayer)) (humanOf aiPlayer)
            else
              forallb
                (fun i =>
                   truthy (get board i)
                   || safe plies' aiPlayer
                        (assign board i (Mark (humanOf aiPlayer))) aiPlayer)
                indices
        end
      else true).

(** The score after the game-over effect has seen a board. *)
Definition scoreAfter (squares : array) (prev : App.Score) : App.Score :=
  match fst (calculateWinner squares) with
  | Some w => App.bumpWinner w prev
  | None => if isDraw squares then App.bumpDraw prev else prev
  end.


(** ** What the component renders (App.js 24-70, 181-248, 356-389) *)

Module View.

(** The props [renderSquare] hands to a [Square]: its key, the value shown,
    the index its click reports, and whether it is highlighted. *)
Record SquareProps := mkSquare {
  key : nat;
  value : option player;
  onClick : nat;
  highlight : bool
}.

(** [winningLine.includes(i)] *)
Definition includes (l : line) (i : nat) : bool :=
  let '(a, b, c) := l in (a =? i) || (b =? i) || (c =? i).

(** [renderSquare(i)] (App.js 46-56); [winningLine && winningLine.includes(i)]
    is falsy when there is no winning line. *)
Definition renderSquare (squares : array) (winningLine : option line) (i : nat)
  : SquareProps :=
  mkSquare i (get squares i) i
    (match winningLine with
     | Some l => includes l i
     | None => false
     end).

(** The grid of [Board] (App.js 59-69): for each row of [[0, 1, 2]], the
    three squares [3 * row + col], [col] being the index in
    [Array(3).fill(0)]. *)
Definition Board (squares : array) (winningLine : option line)
  : list (list SquareProps) :=
  (fun row =>
     imap (fun col _ => renderSquare squares winningLine (3 * row + col))
       (replicate 3 0))
  <$> [0; 1; 2].

Local Open Scope string_scope.

(** The text of [GameStatus] (App.js 181-204). *)
Definition statusText (status : App.Status) (turn : player) (mode : App.Mode)
  : String.string :=
  match status with
  | App.draw => "It's a draw!"
  | App.win =>
      match turn with
      | X => "Winner: X"
      | O => "Winner: O"
      end
  | App.ongoing =>
      match mode, turn with
      | App.ai, O => "Computer's Turn"
      | _, X => "X's Turn"
      | _, O => "O's Turn"
      end
  end.

Local Close Scope string_scope.

(** [const turn = xIsNext ? "X" : "O"] (App.js 357) *)
Definition turn (s : App.State) : player := if App.xIsNext s then X else O.

(** The text [App] shows: [GameStatus] gets [winner ? winner : turn]
    (App.js 383-388). *)
Definition shownStatus (s : App.State) : String.string :=
  statusText (App.status s)
    (match App.winner s with Some w => w | None => turn s end)
    (App.mode s).

(** The board [App] shows (App.js 372-376). *)
Definition shownBoard (s : App.State) : list (list SquareProps) :=
  Board (App.squares s) (App.winningLine s).

(** [disableReset] of [Controls] (App.js 381) *)
Definition disableReset (s : App.State) : bool :=
  (App.scoreX (App.score s) =? 0)%N && (App.scoreO (App.score s) =? 0)%N
  && (App.scoreD (App.score s) =? 0)%N.

(** [disabled] of [ModeSelect] (App.js 369) *)
Definition modeDisabled (s : App.State) : bool :=
  negb (App.status_eqb (App.status s) App.ongoing).

End View.

(** A click the rendered board can report: the [onClick] index of one of
    its squares; the other events are always available. *)
Definition offered (s : App.State) (ev : App.event) : Prop :=
  match ev with
  | App.Click i => i ∈ View.onClick <$> concat (View.shownBoard s)
  | _ => True
  end.

(** A run in which every click comes from the board rendered at that
    moment. *)
Fixpoint uiRun (s : App.State) (evs : list App.event) (s' : App.State) : Prop :=
  match evs with
  | [] => s' = s
  | ev :: rest =>
      offered s ev
      /\ exists s1, App.dispatch s ev = Some s1 /\ uiRun s1 rest s'
  end.



(** In computer mode the board is a position of a game in which O's moves
    are the engine's. *)
Definition engineGame (s : App.State) : Prop :=
  board9 (App.squares s) /\ settled s
  /\ (App.mode s = App.ai ->
      reaches O (emptyBoard, X) (App.squares s, View.turn s)).

(** Putting [p] on the empty cell [i] completes a line for [p]. *)
Definition winsAt (board : array) (p : player) (i : nat) : Prop :=
  i < 9 /\ get board i = None
  /\ fst (calculateWinner (assign board i (Mark p))) = Some p.

(** ** Boards used as examples *)

(** [[X, X, _, O, O, _, _, _, _]] *)
Definition rowsBoard : array :=
  [Mark X; Mark X; Nil; Mark O; Mark O; Nil; Nil; Nil; Nil].

(** [[X, O, X, O, X, O, O, X, O]] *)
Definition fullBoard : array :=
  [Mark X; Mark O; Mark X; Mark O; Mark X; Mark O; Mark O; Mark X; Mark O].

Definition noScore : App.Score := App.mkScore 0 0 0.

(** [[X, X, _, _, O, _, _, _, _]] *)
Definition threatBoard : array :=
  [Mark X; Mark X; Nil; Nil; Mark O; Nil; Nil; Nil; Nil].

(** X has played at the centre of an empty board. *)
Definition centreTaken : App.State :=
  App.mkState App.pvp (assign emptyBoard 4 (Mark X)) false App.ongoing noScore.


(** X takes the top row while O plays the middle row. *)
Definition topRowGame : list App.event :=
  [App.Click 0; App.Click 3; App.Click 1; App.Click 4; App.Click 2].

(** * Properties *)

(** ** Reading and writing cells *)

Section ArrayFacts.

Implicit Types (b : array) (i j : nat) (v : slot) (p : player).

Lemma assign_in_range b i v : i < length b -> assign b i v = <[i := v]> b.
Proof. intros Hi. unfold assign. by destruct (Nat.ltb_spec i (length b)); [|lia]. Qed.

Lemma length_assign b i v : length b <= length (assign b i v).
Proof.
  unfold assign. destruct (Nat.ltb_spec i (length b)).
  - by rewrite length_insert.
  - rewrite length_app. lia.
Qed.

Lemma lookup_assign_eq b i v : assign b i v !! i = Some v.
Proof.
  unfold assign. destruct (Nat.ltb_spec i (length b)) as [Hlt|Hge].
  - by apply list_lookup_insert_eq.
  - rewrite lookup_app_r by done.
    rewrite lookup_app_r by (rewrite length_replicate; lia).
    rewrite length_replicate.
    by replace (i - length b - (i - length b)) with 0 by lia.
Qed.

Lemma get_assign_eq b i v :
  get (assign b i v) i = match v with Mark p => Some p | _ => None end.
Proof. unfold get. rewrite lookup_assign_eq. by destruct v. Qed.

Lemma get_assign_ne b i j v : i <> j -> get (assign b i v) j = get b j.
Proof.
  intros Hne. unfold get, assign.
  destruct (Nat.ltb_spec i (length b)) as [Hlt|Hge].
  - by rewrite list_lookup_insert_ne.
  - destruct (Nat.lt_ge_cases j (length b)) as [Hj|Hj].
    + by rewrite lookup_app_l.
    + rewrite (lookup_ge_None_2 b j) by done.
      rewrite lookup_app_r by done.
      destruct (Nat.lt_ge_cases j i) as [Hji|Hji].
      * rewrite lookup_app_l by (rewrite length_replicate; lia).
        rewrite lookup_replicate_2 by lia. done.
      * rewrite lookup_app_r by (rewrite length_replicate; lia).
        rewrite length_replicate.
        rewrite lookup_ge_None_2; [done|]. simpl. lia.
Qed.

Lemma solid_lookup b i :
  solid b -> i < 9 -> get b i = None -> b !! i = Some Nil.
Proof.
  intros [Hlen Hall] Hi Hget. unfold get in Hget.
  destruct (lookup_lt_is_Some_2 b i) as [s Hs]; [lia|].
  rewrite Hs in Hget. rewrite Hs.
  destruct s as [| |p]; try done.
  rewrite Forall_lookup in Hall. by specialize (Hall _ _ Hs).
Qed.

Lemma solid_assign b i v : solid b -> i < 9 -> v <> Hole -> solid (assign b i v).
Proof.
  intros [Hlen Hall] Hi Hv. unfold assign.
  destruct (Nat.ltb_spec i (length b)); [|lia].
  split; [by rewrite length_insert|].
  by apply Forall_insert.
Qed.

(** Undoing a tentative move gives back the very same array. *)
Lemma assign_undo b i p :
  solid b -> i < 9 -> get b i = None ->
  assign (assign b i (Mark p)) i Nil = b.
Proof.
  intros Hs Hi Hget. pose proof (solid_lookup _ _ Hs Hi Hget) as Hl.
  destruct Hs as [Hlen _].
  rewrite (assign_in_range b) by lia.
  rewrite assign_in_range by (rewrite length_insert; lia).
  rewrite list_insert_insert_eq. by apply list_insert_id.
Qed.

Lemma board9_solid b : board9 b -> solid b.
Proof.
  unfold board9, isBoard. intros [Hlen Hall]%andb_true_iff.
  apply Nat.eqb_eq in Hlen. split; [lia|].
  rewrite forallb_forall in Hall. apply Forall_forall. intros s Hs ->.
  apply list_elem_of_In in Hs. by specialize (Hall _ Hs).
Qed.

Lemma board9_length b : board9 b -> length b = 9.
Proof.
  unfold board9, isBoard. intros [Hlen _]%andb_true_iff.
  by apply Nat.eqb_eq in Hlen.
Qed.

Lemma board9_assign b i v : board9 b -> i < 9 -> v <> Hole -> board9 (assign b i v).
Proof.
  intros Hb Hi Hv. pose proof (board9_length _ Hb) as Hlen.
  destruct (solid_assign b i v (board9_solid _ Hb) Hi Hv) as [_ Hall].
  unfold board9, isBoard. apply andb_true_iff. split.
  - apply Nat.eqb_eq. unfold assign.
    destruct (Nat.ltb_spec i (length b)); [|lia]. by rewrite length_insert.
  - apply forallb_forall. intros s Hs. apply list_elem_of_In in Hs.
    rewrite Forall_forall in Hall. specialize (Hall _ Hs). by destruct s.
Qed.

End ArrayFacts.

(** ** Winner detection *)

Lemma player_eqb_eq p q : player_eqb p q = true <-> p = q.
Proof. destruct p, q; simpl; split; congruence. Qed.

Lemma cell_eqb_eq (c d : option player) : cell_eqb c d = true <-> c = d.
Proof.
  destruct c as [p|], d as [q|]; simpl; try (split; congruence).
  rewrite player_eqb_eq. split; congruence.
Qed.

Lemma humanOf_neq p : humanOf p <> p.
Proof. by destruct p. Qed.

Section Winner.

Variable squares : array.

Lemma cell_eqb_Some (c : option player) p : cell_eqb (Some p) c = true <-> c = Some p.
Proof.
  destruct c as [q|]; simpl; [|split; discriminate].
  destruct p, q; simpl; split; congruence.
Qed.

Lemma lineWon_owns l : lineWon squares l = true <-> exists p, ownsLine squares p l.
Proof.
  destruct l as [[a b] c]. unfold lineWon, ownsLine. simpl. split.
  - destruct (get squares a) as [p|] eqn:Ha; [|discriminate].
    intros [Hb Hc]%andb_true_iff.
    apply cell_eqb_Some in Hb, Hc. by exists p.
  - intros (p & Ha & Hb & Hc). rewrite Ha, Hb, Hc.
    apply andb_true_iff. split; by apply cell_eqb_Some.
Qed.

Lemma lineWon_free l :
  lineWon squares l = false <-> forall p, ~ ownsLine squares p l.
Proof.
  rewrite <- not_true_iff_false, lineWon_owns. split.
  - intros Hno p Hp. apply Hno. by exists p.
  - intros Hno [p Hp]. by apply (Hno p).
Qed.

Lemma scanLines_none ls :
  Forall (fun l => lineWon squares l = false) ls ->
  scanLines squares ls = (None, None).
Proof.
  induction 1 as [|l ls Hl _ IH]; simpl; [done|]. by rewrite Hl.
Qed.

Lemma scanLines_first pre l post p :
  Forall (fun l' => lineWon squares l' = false) pre ->
  ownsLine squares p l ->
  scanLines squares (pre ++ l :: post) = (Some p, Some l).
Proof.
  intros Hpre Hown. induction Hpre as [|l' pre Hl' _ IH]; simpl.
  - assert (lineWon squares l = true) as -> by (apply lineWon_owns; by exists p).
    by destruct Hown as [-> _].
  - by rewrite Hl'.
Qed.

Lemma scanLines_sound ls p l :
  scanLines squares ls = (Some p, Some l) ->
  exists pre post,
    ls = pre ++ l :: post
    /\ Forall (fun l' => lineWon squares l' = false) pre
    /\ ownsLine squares p l.
Proof.
  induction ls as [|l' ls IH]; simpl; [discriminate|].
  destruct (lineWon squares l') eqn:Hl'.
  - intros [= Hp <-]. exists [], ls. split; [done|]. split; [constructor|].
    apply lineWon_owns in Hl' as (q & Ha & Hb & Hc).
    rewrite Ha in Hp. injection Hp as ->. done.
  - intros (pre & post & -> & Hpre & Hown)%IH.
    exists (l' :: pre), post. split; [done|]. split; [by constructor|done].
Qed.

Lemma scanLines_shape ls :
  scanLines squares ls = (None, None)
  \/ exists p l, scanLines squares ls = (Some p, Some l).
Proof.
  induction ls as [|l ls IH]; simpl; [by left|].
  destruct (lineWon squares l) eqn:Hl; [|done].
  right. apply lineWon_owns in Hl as (p & Ha & _). rewrite Ha. by exists p, l.
Qed.

End Winner.

(** C5. Winner detection: [calculateWinner] scans the eight lines in the
    order rows, columns, diagonals; it returns the first line, in that order,
    whose three cells hold the same symbol, with that symbol; it returns
    [(None, None)] when no line qualifies; and whatever pair it returns names
    one of the eight lines, all three cells of which hold the returned
    player.  This holds for every array, reachable in play or not. *)
Theorem calculateWinner_first_line (squares : array) :
  lines = [ (0, 1, 2); (3, 4, 5); (6, 7, 8);
            (0, 3, 6); (1, 4, 7); (2, 5, 8);
            (0, 4, 8); (2, 4, 6) ]
  /\ (forall pre l post p,
        lines = pre ++ l :: post ->
        (forall l' q, l' ∈ pre -> ~ ownsLine squares q l') ->
        ownsLine squares p l ->
        calculateWinner squares = (Some p, Some l))
  /\ ((forall l q, l ∈ lines -> ~ ownsLine squares q l) ->
      calculateWinner squares = (None, None))
  /\ (forall p l,
        calculateWinner squares = (Some p, Some l) ->
        l ∈ lines /\ ownsLine squares p l
        /\ exists pre post,
             lines = pre ++ l :: post
             /\ forall l' q, l' ∈ pre -> ~ ownsLine squares q l')
  /\ (calculateWinner squares = (None, None)
      \/ exists p l, calculateWinner squares = (Some p, Some l)).
Proof.
  split; [reflexivity|]. unfold calculateWinner.
  split; [|split; [|split]].
  - intros pre l post p -> Hpre Hown. apply scanLines_first; [|done].
    apply Forall_forall. intros l' Hl'. apply lineWon_free. eauto.
  - intros Hnone. apply scanLines_none, Forall_forall.
    intros l Hl. apply lineWon_free. eauto.
  - intros p l (pre & post & Heq & Hpre & Hown)%scanLines_sound.
    split; [|split; [done|]].
    + rewrite Heq. apply elem_of_app. right. apply elem_of_cons. by left.
    + exists pre, post. split; [done|]. intros l' q Hl'.
      rewrite Forall_forall in Hpre. by apply lineWon_free, Hpre.
  - apply scanLines_shape.
Qed.

(** ** The engine's arithmetic on scores *)

Ltac num_cases :=
  unfold num_max, num_min, num_gt;
  repeat match goal with
         | x : num |- _ => destruct x
         end;
  simpl;
  repeat match goal with
         | |- context [(?a <? ?b)%Z] => destruct (Z.ltb_spec a b)
         | H : context [(?a <? ?b)%Z] |- _ => destruct (Z.ltb_spec a b)
         end;
  try done; try (intros; simplify_eq; lia); try lia.

Section Scores.

Lemma num_gt_irrefl a : num_gt a a = false.
Proof. num_cases. Qed.

Lemma num_gt_trans a b c : num_gt a b = true -> num_gt b c = true -> num_gt a c = true.
Proof. num_cases. Qed.

Lemma num_gt_asym a b : num_gt a b = true -> num_gt b a = false.
Proof. num_cases. Qed.

Lemma num_gt_le_trans a b c : num_gt a b = true -> num_gt c b = false -> num_gt a c = true.
Proof. num_cases. Qed.

Lemma num_gt_Fin x y : num_gt (Fin x) (Fin y) = true <-> (y < x)%Z.
Proof. simpl. apply Z.ltb_lt. Qed.

Lemma num_le_Fin x y : num_gt (Fin x) (Fin y) = false <-> (x <= y)%Z.
Proof. simpl. rewrite Z.ltb_ge. done. Qed.

Lemma num_gt_trans_le a b c : num_gt a b = false -> num_gt b c = false -> num_gt a c = false.
Proof. num_cases. Qed.

Lemma num_max_choice a b : num_max a b = a \/ num_max a b = b.
Proof. unfold num_max. destruct (num_gt b a); auto. Qed.

Lemma num_min_choice a b : num_min a b = a \/ num_min a b = b.
Proof. unfold num_min. destruct (num_gt a b); auto. Qed.

Lemma num_max_ge_l a b : num_gt a (num_max a b) = false.
Proof. num_cases. Qed.

Lemma num_max_ge_r a b : num_gt b (num_max a b) = false.
Proof. num_cases. Qed.

Lemma num_min_le_l a b : num_gt (num_min a b) a = false.
Proof. num_cases. Qed.

Lemma num_min_le_r a b : num_gt (num_min a b) b = false.
Proof. num_cases. Qed.

(** Folding [Math.max] over a list of scores yields the seed or an element,
    and nothing in sight exceeds it. *)
Lemma fold_num_max (l : list num) : forall a,
  (fold_left num_max l a = a \/ fold_left num_max l a ∈ l)
  /\ num_gt a (fold_left num_max l a) = false
  /\ forall c, c ∈ l -> num_gt c (fold_left num_max l a) = false.
Proof.
  induction l as [|x l IH]; intros a; simpl.
  - split; [by left|]. split; [by destruct a as [|z|]; simpl; try apply Z.ltb_irrefl|].
    intros c Hc. by apply elem_of_nil in Hc.
  - destruct (IH (num_max a x)) as (Hin & Hge & Hall).
    split; [|split].
    + destruct Hin as [Heq|Hin]; [|right; apply elem_of_cons; by right].
      rewrite Heq. destruct (num_max_choice a x) as [->| ->]; [by left|].
      right. apply elem_of_cons. by left.
    + eapply num_gt_trans_le; [apply (num_max_ge_l a x)|done].
    + intros c [->|Hc]%elem_of_cons; [|by apply Hall].
      eapply num_gt_trans_le; [apply (num_max_ge_r a x)|done].
Qed.

Lemma fold_num_min (l : list num) : forall a,
  (fold_left num_min l a = a \/ fold_left num_min l a ∈ l)
  /\ num_gt (fold_left num_min l a) a = false
  /\ forall c, c ∈ l -> num_gt (fold_left num_min l a) c = false.
Proof.
  induction l as [|x l IH]; intros a; simpl.
  - split; [by left|]. split; [by destruct a as [|z|]; simpl; try apply Z.ltb_irrefl|].
    intros c Hc. by apply elem_of_nil in Hc.
  - destruct (IH (num_min a x)) as (Hin & Hge & Hall).
    split; [|split].
    + destruct Hin as [Heq|Hin]; [|right; apply elem_of_cons; by right].
      rewrite Heq. destruct (num_min_choice a x) as [->| ->]; [by left|].
      right. apply elem_of_cons. by left.
    + eapply num_gt_trans_le; [done|apply (num_min_le_l a x)].
    + intros c [->|Hc]%elem_of_cons; [|by apply Hall].
      eapply num_gt_trans_le; [done|apply (num_min_le_r a x)].
Qed.

End Scores.

(** ** The engine leaves the board as it found it *)

Section Threading.

(** A loop whose body hands back the array it was given is a fold over the
    other component alone. *)
Lemma fold_left_threaded {A} (f : A * array -> nat -> A * array)
    (g : A -> nat -> A) (b : array) (l : list nat) :
  (forall a i, i ∈ l -> f (a, b) i = (g a i, b)) ->
  forall a, fold_left f l (a, b) = (fold_left g l a, b).
Proof.
  induction l as [|i l IH]; intros Hstep a; simpl; [done|].
  rewrite Hstep by (apply elem_of_cons; by left).
  apply IH. intros a' j Hj. apply Hstep, elem_of_cons. by right.
Qed.

Lemma fold_left_agree {A} (f g : A -> nat -> A) (l : list nat) :
  (forall a i, i ∈ l -> f a i = g a i) ->
  forall a, fold_left f l a = fold_left g l a.
Proof.
  induction l as [|i l IH]; intros Hfg a; simpl; [done|].
  rewrite Hfg by (apply elem_of_cons; by left).
  apply IH. intros a' j Hj. apply Hfg, elem_of_cons. by right.
Qed.

Lemma elem_of_indices i : i ∈ indices <-> i < 9.
Proof. unfold indices. rewrite elem_of_seq. lia. Qed.

(** Filling an empty cell lowers the count of empty cells by one. *)
Lemma emptyCount_assign (b : array) i p :
  i < 9 -> get b i = None ->
  emptyCount b = S (emptyCount (assign b i (Mark p))).
Proof.
  intros Hi Hget. unfold emptyCount.
  assert (i ∈ indices) as Hin by by apply elem_of_indices.
  assert (NoDup indices) as Hnd by apply NoDup_seq.
  induction indices as [|j l IH]; [by apply elem_of_nil in Hin|].
  apply NoDup_cons in Hnd as [Hj Hnd].
  rewrite !filter_cons.
  destruct (decide (j = i)) as [->|Hne].
  - rewrite get_assign_eq, Hget. simpl. f_equal. clear IH Hin.
    induction l as [|k l IHl]; [done|].
    apply NoDup_cons in Hnd as [_ Hnd].
    apply not_elem_of_cons in Hj as [Hik Hj].
    rewrite !filter_cons, get_assign_ne by done.
    case_decide; simpl; by rewrite IHl.
  - apply elem_of_cons in Hin as [->|Hin]; [done|].
    rewrite get_assign_ne by done.
    case_decide; simpl; by rewrite IH.
Qed.

Variable aiPlayer : player.

Lemma minimax_go_S fuel (board : array) depth isMax :
  minimax_go (S fuel) aiPlayer board depth isMax
  = let human := humanOf aiPlayer in
    let winner := fst (calculateWinner board) in
    if cell_eqb winner (Some aiPlayer) then (Fin (10 - depth)%Z, board)
    else if cell_eqb winner (Some human) then (Fin (depth - 10)%Z, board)
    else if every board then (Fin 0%Z, board)
    else
      fold_left
        (fun (st : num * array) (i : nat) =>
           let '(best, board) := st in
           if truthy (get board i) then (best, board)
           else
             let board := assign board i (Mark (if isMax then aiPlayer else human)) in
             let '(score, board) :=
               minimax_go fuel aiPlayer board (depth + 1)%Z (negb isMax) in
             let board := assign board i Nil in
             ((if isMax then num_max best score else num_min best score), board))
        indices
        ((if isMax then NegInf else PosInf), board).
Proof. reflexivity. Qed.

Lemma minimax_go_step fuel (b : array) d m :
  solid b ->
  (forall b' d' m', solid b' -> snd (minimax_go fuel aiPlayer b' d' m') = b') ->
  minimax_go (S fuel) aiPlayer b d m
  = (minimaxBody aiPlayer (fun b' d' m' => fst (minimax_go fuel aiPlayer b' d' m')) b d m, b).
Proof.
  intros Hb IH. unfold minimaxBody. rewrite minimax_go_S. cbv zeta.
  destruct (cell_eqb _ (Some aiPlayer)); [done|].
  destruct (cell_eqb _ (Some (humanOf aiPlayer))); [done|].
  destruct (every b); [done|].
  apply fold_left_threaded. intros best i Hi%elem_of_indices.
  unfold mergeMove. destruct (get b i) eqn:Hget; [done|]. simpl.
  set (b1 := assign b i _).
  assert (solid b1) as Hb1 by (by apply solid_assign).
  specialize (IH b1 (d + 1)%Z (negb m) Hb1).
  destruct (minimax_go fuel aiPlayer b1 (d + 1) (negb m)) as [score b2].
  simpl in IH. subst b2. simpl. f_equal.
  by apply assign_undo.
Qed.

Lemma minimax_go_restores fuel : forall (b : array) d m,
  solid b -> snd (minimax_go fuel aiPlayer b d m) = b.
Proof.
  induction fuel as [|fuel IH]; intros b d m Hb.
  - simpl. by repeat destruct (_ : bool).
  - by rewrite minimax_go_step.
Qed.

(** The recursion equation of [minimax], free of fuel and of the threaded
    array. *)
Lemma minimax_unfold (b : array) d m :
  solid b ->
  minimax aiPlayer b d m
  = (minimaxBody aiPlayer (fun b' d' m' => fst (minimax aiPlayer b' d' m')) b d m, b).
Proof.
  intros Hb. unfold minimax.
  rewrite minimax_go_step by (done || apply minimax_go_restores).
  f_equal. unfold minimaxBody.
  repeat (destruct (_ : bool); [done|]).
  apply fold_left_agree. intros best i Hi%elem_of_indices.
  unfold mergeMove. destruct (get b i) eqn:Hget; [done|].
  cbv beta iota zeta delta [truthy minimax].
  by rewrite <- (emptyCount_assign b i).
Qed.

Lemma minimax_restores (b : array) d m :
  solid b -> snd (minimax aiPlayer b d m) = b.
Proof. intros Hb. by rewrite minimax_unfold. Qed.

End Threading.

(** ** Minimax scores on boards *)

Section Minimax.

Variable aiPlayer : player.

Lemma every_false (b : array) : every b = false -> exists i, b !! i = Some Nil.
Proof.
  induction b as [|s b IH]; simpl; [discriminate|].
  destruct s; simpl; try (intros [i Hi]%IH; by exists (S i)).
  intros _. by exists 0.
Qed.

Lemma every_true (b : array) i : every b = true -> b !! i <> Some Nil.
Proof.
  unfold every. rewrite forallb_forall. intros Hall Hi.
  apply list_elem_of_lookup_2, list_elem_of_In in Hi. by specialize (Hall _ Hi).
Qed.

(** On a board, [every] fails exactly when some cell is empty. *)
Lemma board9_not_full (b : array) :
  board9 b -> every b = false -> exists i, i < 9 /\ get b i = None.
Proof.
  intros Hb [i Hi]%every_false. exists i. split.
  - rewrite <- (board9_length b Hb). by eapply lookup_lt_Some.
  - unfold get. by rewrite Hi.
Qed.

Lemma board9_full (b : array) i :
  board9 b -> every b = true -> i < 9 -> exists p, get b i = Some p.
Proof.
  intros Hb Hall Hi. destruct (get b i) as [p|] eqn:Hget; [by exists p|].
  apply (solid_lookup b i (board9_solid b Hb) Hi) in Hget.
  by apply (every_true b i) in Hall.
Qed.

(** The loop of [minimax] merges the scores of the empty cells, in
    ascending order of index. *)
Lemma fold_mergeMove rec (b : array) d m (l : list nat) : forall a,
  fold_left (mergeMove aiPlayer rec b d m) l a
  = fold_left (if m then num_max else num_min)
      (map (fun i => rec (assign b i (Mark (if m then aiPlayer else humanOf aiPlayer)))
                         (d + 1)%Z (negb m))
           (filter (fun i => get b i = None) l))
      a.
Proof.
  induction l as [|i l IH]; intros a; [done|].
  cbn [fold_left]. rewrite IH, filter_cons. unfold mergeMove.
  destruct (get b i) eqn:Hget; case_decide; try done.
  cbn [truthy map fold_left]. by destruct m.
Qed.

Lemma minimax_finite n : forall (b : array) d m,
  board9 b -> emptyCount b = n -> exists z, fst (minimax aiPlayer b d m) = Fin z.
Proof.
  induction n as [|n IH]; intros b d m Hb Hn;
    rewrite minimax_unfold by (by apply board9_solid); simpl; unfold minimaxBody;
    (destruct (cell_eqb _ (Some aiPlayer)); [by eexists|]);
    (destruct (cell_eqb _ (Some (humanOf aiPlayer))); [by eexists|]);
    (destruct (every b) eqn:Hfull; [by eexists|]);
    destruct (board9_not_full b Hb Hfull) as (i & Hi & Hget).
  - pose proof (emptyCount_assign b i aiPlayer Hi Hget). lia.
  - rewrite fold_mergeMove.
    set (kids := map _ _).
    assert (forall c, c ∈ kids -> exists z, c = Fin z) as Hkids.
    { intros c (j & -> & [Hj Hin%elem_of_indices]%list_elem_of_filter)%list_elem_of_fmap.
      apply IH; [by apply board9_assign|].
      pose proof (emptyCount_assign b j (if m then aiPlayer else humanOf aiPlayer) Hin Hj).
      lia. }
    assert (exists c, c ∈ kids) as [c Hc].
    { eexists. apply list_elem_of_fmap. exists i. split; [done|].
      apply list_elem_of_filter. split; [done|]. by apply elem_of_indices. }
    destruct (Hkids c Hc) as [z ->].
    destruct m.
    + destruct (fold_num_max kids NegInf) as ([Heq|Hin] & _ & Hall); [|by apply Hkids].
      specialize (Hall _ Hc). by rewrite Heq in Hall.
    + destruct (fold_num_min kids PosInf) as ([Heq|Hin] & _ & Hall); [|by apply Hkids].
      specialize (Hall _ Hc). by rewrite Heq in Hall.
Qed.

End Minimax.

(** C4. The minimax score: on every board, at every depth and for both values
    of the maximizing flag, [minimax] returns 10 - depth when the computer's
    symbol has a line, else depth - 10 when the human's has one, else 0 when
    the board is full, and else the greatest (maximizing) or least (not
    maximizing) of the scores of the boards obtained by putting the mover's
    symbol on an empty cell, taken at depth + 1 with the flag flipped; the
    board comes back unchanged. *)
Theorem minimax_recursion (aiPlayer : player) (board : array) (depth : Z) (isMax : bool) :
  board9 board ->
  let winner := fst (calculateWinner board) in
  let mover := if isMax then aiPlayer else humanOf aiPlayer in
  let child := fun i =>
    fst (minimax aiPlayer (assign board i (Mark mover)) (depth + 1)%Z (negb isMax)) in
  let score := fst (minimax aiPlayer board depth isMax) in
  snd (minimax aiPlayer board depth isMax) = board
  /\ (every board = true <-> forall i, i < 9 -> get board i <> None)
  /\ (winner = Some aiPlayer -> score = Fin (10 - depth)%Z)
  /\ (winner = Some (humanOf aiPlayer) -> score = Fin (depth - 10)%Z)
  /\ (winner = None -> every board = true -> score = Fin 0%Z)
  /\ (winner = None -> every board = false ->
      exists r,
        score = Fin r
        /\ (exists i, i < 9 /\ get board i = None /\ child i = Fin r)
        /\ forall i, i < 9 -> get board i = None ->
             exists z, child i = Fin z
                       /\ if isMax then (z <= r)%Z else (r <= z)%Z).
Proof.
  intros Hb winner mover child score.
  pose proof (board9_solid board Hb) as Hs.
  subst score. rewrite minimax_unfold by done. cbn [fst snd].
  unfold minimaxBody. fold winner.
  split; [done|]. split.
  { split.
    - intros Hfull i Hi Hget.
      destruct (board9_full board i Hb Hfull Hi) as [p Hp]. congruence.
    - intros Hnone. destruct (every board) eqn:Hfull; [done|].
      destruct (board9_not_full board Hb Hfull) as (i & Hi & Hget).
      by apply Hnone in Hget. }
  split; [|split; [|split]].
  - intros ->. by rewrite (proj2 (cell_eqb_eq _ _) eq_refl).
  - intros ->.
    destruct (cell_eqb _ (Some aiPlayer)) eqn:Hai.
    + apply cell_eqb_eq in Hai. injection Hai as Hai. by apply humanOf_neq in Hai.
    + by rewrite (proj2 (cell_eqb_eq _ _) eq_refl).
  - intros -> ->. done.
  - intros -> Hfull. rewrite Hfull. cbn [cell_eqb].
    rewrite fold_mergeMove. fold mover. fold child.
    set (kids := map child _).
    assert (forall i, i < 9 -> get board i = None -> exists z, child i = Fin z) as Hfin.
    { intros i Hi Hget. eapply minimax_finite; [|done]. by apply board9_assign. }
    assert (forall c, c ∈ kids <-> exists i, i < 9 /\ get board i = None /\ c = child i)
      as Hkids.
    { intros c. unfold kids. rewrite list_elem_of_fmap. split.
      - intros (i & -> & [Hget Hi%elem_of_indices]%list_elem_of_filter). by exists i.
      - intros (i & Hi & Hget & ->). exists i. split; [done|].
        apply list_elem_of_filter. split; [done|]. by apply elem_of_indices. }
    destruct (board9_not_full board Hb Hfull) as (i0 & Hi0 & Hget0).
    destruct (Hfin i0 Hi0 Hget0) as [z0 Hz0].
    assert (Fin z0 ∈ kids) as Hin0 by (apply Hkids; exists i0; by rewrite Hz0).
    destruct isMax.
    + destruct (fold_num_max kids NegInf) as (Hsrc & _ & Hall).
      destruct Hsrc as [Heq|Hin].
      { specialize (Hall _ Hin0). by rewrite Heq in Hall. }
      pose proof Hin as (i & Hi & Hget & Hr)%Hkids.
      destruct (Hfin i Hi Hget) as [r Hri]. rewrite Hr, Hri in *.
      exists r. split; [done|]. split; [by exists i|].
      intros j Hj Hgetj. destruct (Hfin j Hj Hgetj) as [z Hz].
      exists z. split; [done|]. apply num_le_Fin. apply Hall.
      apply Hkids. exists j. by rewrite Hz.
    + destruct (fold_num_min kids PosInf) as (Hsrc & _ & Hall).
      destruct Hsrc as [Heq|Hin].
      { specialize (Hall _ Hin0). by rewrite Heq in Hall. }
      pose proof Hin as (i & Hi & Hget & Hr)%Hkids.
      destruct (Hfin i Hi Hget) as [r Hri]. rewrite Hr, Hri in *.
      exists r. split; [done|]. split; [by exists i|].
      intros j Hj Hgetj. destruct (Hfin j Hj Hgetj) as [z Hz].
      exists z. split; [done|]. apply num_le_Fin. apply Hall.
      apply Hkids. exists j. by rewrite Hz.
Qed.

(** ** Move selection *)

Section MoveSelection.

Variable aiPlayer : player.

Lemma computeAIMove_unfold (b : array) :
  solid b ->
  computeAIMove b aiPlayer
  = (let move := snd (fold_left (pickMove (moveScore aiPlayer b) b) indices (NegInf, (-1)%Z)) in
     if (move =? -1)%Z then findIndex b else move,
     b).
Proof.
  intros Hb. unfold computeAIMove.
  rewrite (fold_left_threaded _ (pickMove (moveScore aiPlayer b) b) b).
  - by destruct (fold_left _ _ _) as [bestScore move].
  - intros [bestScore move] i Hi%elem_of_indices. unfold pickMove, moveScore.
    destruct (get b i) eqn:Hget; [done|]. cbn [truthy fst].
    set (b1 := assign b i _).
    assert (solid b1) as Hb1 by (by apply solid_assign).
    pose proof (minimax_restores aiPlayer b1 0%Z false Hb1) as Hsnd.
    destruct (minimax aiPlayer b1 0 false) as [score b2].
    cbn [fst snd] in *. subst b2 b1.
    rewrite (assign_undo b i aiPlayer) by done.
    by destruct (num_gt score bestScore).
Qed.

(** The loop keeps the first move, in ascending order of index, that scores
    strictly more than everything before it and at least as much as
    everything after it. *)
Lemma pickMove_first_best (score : nat -> num) (b : array) n : forall a bs mv,
  (fold_left (pickMove score b) (seq a n) (bs, mv) = (bs, mv)
   /\ forall j, a <= j < a + n -> get b j = None -> num_gt (score j) bs = false)
  \/ (exists i,
        a <= i < a + n /\ get b i = None
        /\ fold_left (pickMove score b) (seq a n) (bs, mv) = (score i, Z.of_nat i)
        /\ num_gt (score i) bs = true
        /\ (forall j, a <= j < a + n -> get b j = None ->
             num_gt (score j) (score i) = false)
        /\ (forall j, a <= j < i -> get b j = None ->
             num_gt (score i) (score j) = true)).
Proof.
  induction n as [|n IH]; intros a bs mv; cbn [seq fold_left].
  - left. split; [done|]. intros j Hj. lia.
  - destruct (get b a) eqn:Hget.
    + replace (pickMove score b (bs, mv) a) with (bs, mv)
        by (unfold pickMove; by rewrite Hget).
      destruct (IH (S a) bs mv) as [[Heq Hall]|(i & Hi & Hgi & Heq & Hgt & Hall & Hbefore)].
      * left. split; [done|]. intros j Hj Hgj.
        destruct (decide (j = a)) as [->|Hne]; [congruence|]. apply Hall; [lia|done].
      * right. exists i. repeat split; try done; try lia.
        -- intros j Hj Hgj.
           destruct (decide (j = a)) as [->|Hne]; [congruence|]. apply Hall; [lia|done].
        -- intros j Hj Hgj.
           destruct (decide (j = a)) as [->|Hne]; [congruence|]. apply Hbefore; [lia|done].
    + destruct (num_gt (score a) bs) eqn:Hfirst.
      * replace (pickMove score b (bs, mv) a) with (score a, Z.of_nat a)
          by (unfold pickMove; cbn [fst]; by rewrite Hget, Hfirst).
        destruct (IH (S a) (score a) (Z.of_nat a))
          as [[Heq Hall]|(i & Hi & Hgi & Heq & Hgt & Hall & Hbefore)].
        -- right. exists a. repeat split; try done; try lia.
           intros j Hj Hgj. destruct (decide (j = a)) as [->|Hne].
           ++ apply num_gt_irrefl.
           ++ apply Hall; [lia|done].
        -- right. exists i. repeat split; try done; try lia.
           ++ by eapply num_gt_trans.
           ++ intros j Hj Hgj. destruct (decide (j = a)) as [->|Hne].
              ** by apply num_gt_asym.
              ** apply Hall; [lia|done].
           ++ intros j Hj Hgj. destruct (decide (j = a)) as [->|Hne]; [done|].
              apply Hbefore; [lia|done].
      * replace (pickMove score b (bs, mv) a) with (bs, mv)
          by (unfold pickMove; cbn [fst]; by rewrite Hget, Hfirst).
        destruct (IH (S a) bs mv)
          as [[Heq Hall]|(i & Hi & Hgi & Heq & Hgt & Hall & Hbefore)].
        -- left. split; [done|]. intros j Hj Hgj.
           destruct (decide (j = a)) as [->|Hne]; [done|]. apply Hall; [lia|done].
        -- right. exists i. repeat split; try done; try lia.
           ++ intros j Hj Hgj. destruct (decide (j = a)) as [->|Hne].
              ** apply num_gt_asym. by eapply num_gt_le_trans.
              ** apply Hall; [lia|done].
           ++ intros j Hj Hgj. destruct (decide (j = a)) as [->|Hne].
              ** by eapply num_gt_le_trans.
              ** apply Hbefore; [lia|done].
Qed.

Lemma findIndex_from_full (b : array) : forall k,
  (forall i, i < length b -> get b i <> None) -> findIndex_from k b = (-1)%Z.
Proof.
  induction b as [|s b IH]; intros k Hall; [done|].
  pose proof (Hall 0 ltac:(simpl; lia)) as H0. unfold get in H0. simpl in H0.
  destruct s as [| |p]; try done. simpl. apply IH.
  intros i Hi. apply (Hall (S i)). simpl. lia.
Qed.

Lemma findIndex_from_range (b : array) : forall k,
  (0 <= k)%Z -> (-1 <= findIndex_from k b)%Z.
Proof.
  induction b as [|s b IH]; intros k Hk; simpl; [lia|].
  destruct s; try lia. apply IH. lia.
Qed.

Lemma findIndex_from_found (b : array) i : forall k,
  (0 <= k)%Z -> b !! i = Some Nil -> (0 <= findIndex_from k b)%Z.
Proof.
  revert i. induction b as [|s b IH]; intros i k Hk Hi; [done|].
  simpl. destruct s; try lia. destruct i as [|i]; [done|]. simpl in Hi.
  eapply IH; [lia|done].
Qed.

End MoveSelection.

(** C3. Move selection: on every board with an empty cell and for either
    computer symbol, [computeAIMove] returns the index of an empty cell whose
    minimax score is the greatest among the empty cells and strictly greater
    than the score of every empty cell of lower index (the cells are examined
    in ascending order and ties go to the lowest index); it hands the board
    back unchanged, so a second call on the same board returns the same
    move. *)
Theorem computeAIMove_first_best (aiPlayer : player) (board : array) :
  board9 board ->
  (exists i, i < 9 /\ get board i = None) ->
  let score := fun i =>
    fst (minimax aiPlayer (assign board i (Mark aiPlayer)) 0%Z false) in
  exists move r,
    computeAIMove board aiPlayer = (Z.of_nat move, board)
    /\ move < 9 /\ get board move = None
    /\ score move = Fin r
    /\ (forall j, j < 9 -> get board j = None ->
         exists z, score j = Fin z /\ (z <= r)%Z /\ (j < move -> (z < r)%Z))
    /\ fst (computeAIMove (snd (computeAIMove board aiPlayer)) aiPlayer)
       = fst (computeAIMove board aiPlayer).
Proof.
  intros Hb (i0 & Hi0 & Hget0) score.
  pose proof (board9_solid board Hb) as Hs.
  assert (forall j, j < 9 -> get board j = None -> exists z, score j = Fin z) as Hfin.
  { intros j Hj Hgetj. eapply minimax_finite; [|done]. by apply board9_assign. }
  assert (snd (computeAIMove board aiPlayer) = board) as ->
    by (by rewrite computeAIMove_unfold).
  rewrite computeAIMove_unfold by done. unfold indices. cbn [fst snd].
  change (moveScore aiPlayer board) with score.
  destruct (pickMove_first_best score board 9 0 NegInf (-1)%Z)
    as [[_ Hall]|(i & Hi & Hgi & -> & _ & Hall & Hbefore)].
  - specialize (Hall i0 ltac:(lia) Hget0).
    destruct (Hfin i0 Hi0 Hget0) as [z Hz]. by rewrite Hz in Hall.
  - destruct (Hfin i ltac:(lia) Hgi) as [r Hr].
    exists i, r. cbn [snd].
    assert ((Z.of_nat i =? -1)%Z = false) as -> by (apply Z.eqb_neq; lia).
    split; [done|]. split; [lia|]. split; [done|]. split; [done|]. split; [|done].
    intros j Hj Hgj. destruct (Hfin j Hj Hgj) as [z Hz]. exists z.
    split; [done|]. split.
    + apply num_le_Fin. rewrite <- Hz, <- Hr. apply Hall; [lia|done].
    + intros Hlt. apply num_gt_Fin. rewrite <- Hz, <- Hr. apply Hbefore; [lia|done].
Qed.

(** C10. Outside its precondition: on a board without an empty cell
    [computeAIMove] returns -1, for either symbol, and leaves the board as it
    is. *)
Theorem computeAIMove_full_board (aiPlayer : player) (board : array) :
  board9 board ->
  (forall i, i < 9 -> get board i <> None) ->
  computeAIMove board aiPlayer = ((-1)%Z, board).
Proof.
  intros Hb Hfull.
  rewrite computeAIMove_unfold by (by apply board9_solid). unfold indices.
  destruct (pickMove_first_best (moveScore aiPlayer board) board 9 0 NegInf (-1)%Z)
    as [[-> _]|(i & Hi & Hgi & _)].
  - cbn [snd]. rewrite Z.eqb_refl. unfold findIndex.
    rewrite findIndex_from_full; [done|].
    intros i Hi. apply Hfull. by rewrite <- (board9_length board Hb).
  - by apply Hfull in Hgi; [|lia].
Qed.

Lemma computeAIMove_first_best_witness :
  board9 rowsBoard
  /\ exists move r,
       computeAIMove rowsBoard O = (Z.of_nat move, rowsBoard)
       /\ move < 9 /\ get rowsBoard move = None
       /\ fst (minimax O (assign rowsBoard move (Mark O)) 0%Z false) = Fin r
       /\ (forall j, j < 9 -> get rowsBoard j = None ->
            exists z,
              fst (minimax O (assign rowsBoard j (Mark O)) 0%Z false) = Fin z
              /\ (z <= r)%Z /\ (j < move -> (z < r)%Z))
       /\ fst (computeAIMove (snd (computeAIMove rowsBoard O)) O)
          = fst (computeAIMove rowsBoard O).
Proof.
  split; [reflexivity|].
  apply (computeAIMove_first_best O rowsBoard); [reflexivity|].
  exists 2. split; [lia|reflexivity].
Defined.

Lemma minimax_recursion_witness :
  board9 rowsBoard
  /\ snd (minimax O rowsBoard 0%Z true) = rowsBoard
  /\ (fst (calculateWinner rowsBoard) = None -> every rowsBoard = false ->
      exists r,
        fst (minimax O rowsBoard 0%Z true) = Fin r
        /\ (exists i, i < 9 /\ get rowsBoard i = None
                      /\ fst (minimax O (assign rowsBoard i (Mark O)) 1%Z false) = Fin r)
        /\ forall i, i < 9 -> get rowsBoard i = None ->
             exists z, fst (minimax O (assign rowsBoard i (Mark O)) 1%Z false) = Fin z
                       /\ (z <= r)%Z).
Proof.
  split; [reflexivity|].
  destruct (minimax_recursion O rowsBoard 0%Z true) as (Hsnd & _ & _ & _ & _ & Hrec);
    [reflexivity|].
  split; [exact Hsnd|exact Hrec].
Defined.

Lemma computeAIMove_full_board_witness :
  board9 fullBoard /\ computeAIMove fullBoard O = ((-1)%Z, fullBoard).
Proof.
  split; [reflexivity|].
  apply (computeAIMove_full_board O fullBoard); [reflexivity|].
  intros i Hi. do 9 (destruct i as [|i]; [discriminate|]). lia.
Defined.

(** C2 as stated fails: on [[X, X, _, O, O, _, _, _, _]] with the computer
    playing O the engine does not return index 2. *)
Lemma computeAIMove_rowsBoard_not_2 : fst (computeAIMove rowsBoard O) <> 2%Z.
Proof. vm_compute. discriminate. Qed.

(** C2, amended. On [[X, X, _, O, O, _, _, _, _]] with the computer playing
    O the engine returns index 5, which completes O's own row 3-4-5 and scores
    10; the block at index 2 scores 8, so it is passed over. *)
Theorem computeAIMove_rowsBoard_wins :
  computeAIMove rowsBoard O = (5%Z, rowsBoard)
  /\ moveScore O rowsBoard 5 = Fin 10%Z
  /\ moveScore O rowsBoard 2 = Fin 8%Z
  /\ calculateWinner (assign rowsBoard 5 (Mark O)) = (Some O, Some (3, 4, 5)).
Proof. vm_compute. done. Qed.

(** ** The controller *)

Section Controller.

Import App.

Implicit Types (s : State) (ev : event).

Lemma status_eqb_eq a b : status_eqb a b = true <-> a = b.
Proof. destruct a, b; simpl; split; congruence. Qed.

Lemma mode_eqb_eq a b : mode_eqb a b = true <-> a = b.
Proof. destruct a, b; simpl; split; congruence. Qed.

(** A click is either dropped, or it marks an empty cell for the player to
    move and passes the turn. *)
Lemma handleSquareClick_cases s i isAI :
  handleSquareClick s i isAI = []
  \/ (get (squares s) i = None /\ winner s = None
      /\ (status s = draw -> False)
      /\ handleSquareClick s i isAI
         = [setSquares (assign (squares s) i (Mark (if xIsNext s then X else O)));
            setXIsNext (negb (xIsNext s))]).
Proof.
  unfold handleSquareClick, slice.
  destruct (get (squares s) i); [by left|].
  destruct (winner s); [by left|]. cbn [truthy orb].
  destruct (status_eqb (status s) draw) eqn:Hst; [by left|].
  destruct (_ && _); [by left|]. right. repeat split; try done.
  intros Hd. by rewrite Hd in Hst.
Qed.

Lemma commit_gameOverEffect s :
  commit s (gameOverEffect s)
  = mkState (mode s) (squares s) (xIsNext s) (statusOf (squares s))
      (scoreAfter (squares s) (score s)).
Proof.
  unfold gameOverEffect, statusOf, scoreAfter, winner.
  destruct (fst (calculateWinner (squares s))); [done|].
  by destruct (isDraw (squares s)).
Qed.

(** In a settled state a finished game shows as a winner or as the ["draw"]
    status. *)
Lemma terminal_guard s :
  settled s -> terminal s = true ->
  truthy (winner s) || status_eqb (status s) draw = true.
Proof.
  unfold settled, terminal, statusOf, winner. intros ->.
  destruct (fst (calculateWinner (squares s))); [done|].
  by destruct (isDraw (squares s)).
Qed.

(** What a move attempt does to the state. *)
Lemma dispatch_move s ev s' :
  isMove ev -> dispatch s ev = Some s' ->
  s' = s
  \/ exists i,
       get (squares s) i = None /\ winner s = None
       /\ (status s = draw -> False)
       /\ s' = mkState (mode s)
                 (assign (squares s) i (Mark (if xIsNext s then X else O)))
                 (negb (xIsNext s))
                 (statusOf (assign (squares s) i (Mark (if xIsNext s then X else O))))
                 (scoreAfter (assign (squares s) i (Mark (if xIsNext s then X else O)))
                    (score s)).
Proof.
  assert (forall i isAI,
    Some (let us := handleSquareClick s i isAI in
          let s1 := commit s us in
          if replacesSquares us then commit s1 (gameOverEffect s1) else s1) = Some s' ->
    s' = s \/ exists i, get (squares s) i = None /\ winner s = None
       /\ (status s = draw -> False)
       /\ s' = mkState (mode s)
                 (assign (squares s) i (Mark (if xIsNext s then X else O)))
                 (negb (xIsNext s))
                 (statusOf (assign (squares s) i (Mark (if xIsNext s then X else O))))
                 (scoreAfter (assign (squares s) i (Mark (if xIsNext s then X else O)))
                    (score s))) as Hclick.
  { intros i isAI. cbv zeta.
    destruct (handleSquareClick_cases s i isAI) as [->|(Hget & Hw & Hst & ->)].
    - simpl. intros [= <-]. by left.
    - cbn [replacesSquares existsb orb]. rewrite commit_gameOverEffect.
      intros [= <-]. right. by exists i. }
  unfold dispatch. destruct ev as [i| | | |]; try done; intros _; simpl.
  - apply Hclick.
  - destruct (aiTimerArmed s).
    + unfold aiTimeout. destruct (_ <? 0)%Z; [done|]. apply Hclick.
    + simpl. intros [= <-]. by left.
Qed.

End Controller.

Section Games.

Import App.

Implicit Types (s : State) (ev : event).

Lemma statusOf_ongoing (sq : array) (sc : Score) :
  statusOf sq = ongoing -> scoreAfter sq sc = sc.
Proof.
  unfold statusOf, scoreAfter.
  destruct (fst (calculateWinner sq)); [done|]. by destruct (isDraw sq).
Qed.

Lemma terminal_false s : terminal s = false -> statusOf (squares s) = ongoing.
Proof.
  unfold terminal. intros Ht%negb_false_iff. by apply status_eqb_eq.
Qed.

Lemma settled_dispatch s ev s' : settled s -> dispatch s ev = Some s' -> settled s'.
Proof.
  intros Hs. destruct ev as [i| | |val|].
  - intros [->|(j & _ & _ & _ & ->)]%dispatch_move;
      [done|by unfold settled|exact I].
  - by intros [= <-].
  - intros [= <-]. apply Hs.
  - by intros [= <-].
  - intros [->|(j & _ & _ & _ & ->)]%dispatch_move;
      [done|by unfold settled|exact I].
Qed.

(** Every state the component reaches is settled. *)
Lemma settled_run evs : forall s s', settled s -> run s evs = Some s' -> settled s'.
Proof.
  induction evs as [|ev evs IH]; intros s s' Hs; simpl.
  - by intros [= <-].
  - destruct (dispatch s ev) as [s1|] eqn:Hd; [|done].
    apply IH. by eapply settled_dispatch.
Qed.

Lemma settled_initial stored : settled (initial stored).
Proof. reflexivity. Qed.

(** Once the game is over, move attempts change nothing. *)
Lemma terminal_absorbs s ev s' :
  settled s -> terminal s = true -> isMove ev -> dispatch s ev = Some s' -> s' = s.
Proof.
  intros Hs Ht Hev [->|(i & _ & Hw & Hd & _)]%dispatch_move; [done| |done].
  apply (terminal_guard s Hs) in Ht. rewrite Hw in Ht. simpl in Ht.
  by apply status_eqb_eq in Ht.
Qed.

Lemma run_terminal evs : forall s s',
  settled s -> terminal s = true -> Forall isMove evs -> run s evs = Some s' -> s' = s.
Proof.
  induction evs as [|ev evs IH]; intros s s' Hs Ht Hevs; simpl.
  - by intros [= <-].
  - apply Forall_cons in Hevs as [Hev Hevs].
    destruct (dispatch s ev) as [s1|] eqn:Hd; [|done].
    apply (terminal_absorbs s ev s1 Hs Ht Hev) in Hd as ->. by apply IH.
Qed.

(** Over the moves of one game the score is touched once, by the move that
    ends the game. *)
Lemma run_scoreAfter evs : forall s s',
  settled s -> terminal s = false -> Forall isMove evs -> run s evs = Some s' ->
  score s' = scoreAfter (squares s') (score s).
Proof.
  induction evs as [|ev evs IH]; intros s s' Hs Ht Hevs; simpl.
  - intros [= <-]. by rewrite statusOf_ongoing by (by apply terminal_false).
  - apply Forall_cons in Hevs as [Hev Hevs].
    destruct (dispatch s ev) as [s1|] eqn:Hd; [|done].
    pose proof (settled_dispatch s ev s1 Hs Hd) as Hs1.
    pose proof Hd as [->|(i & _ & _ & _ & Heq)]%dispatch_move; [by apply IH| |done].
    destruct (terminal s1) eqn:Ht1.
    + intros ->%run_terminal; [|done..]. by rewrite Heq.
    + intros Hrun. rewrite (IH s1 s' Hs1 Ht1 Hevs Hrun). f_equal.
      rewrite Heq. cbn [score squares]. apply statusOf_ongoing.
      apply terminal_false in Ht1. by rewrite Heq in Ht1.
Qed.

(** Counting marks. *)
Lemma countMark_app p (l1 l2 : array) :
  countMark p (l1 ++ l2) = countMark p l1 + countMark p l2.
Proof. unfold countMark. by rewrite filter_app, length_app. Qed.

Lemma countMark_cons p v (l : array) :
  countMark p (v :: l) = (if decide (v = Mark p) then 1 else 0) + countMark p l.
Proof. unfold countMark. rewrite filter_cons. by case_decide. Qed.

Lemma countMark_holes p k : countMark p (replicate k Hole) = 0.
Proof. induction k as [|k IH]; [done|]. simpl. by rewrite countMark_cons, IH. Qed.

(** Marking an empty cell adds one mark of that player and no other. *)
Lemma countMark_assign p q (b : array) i :
  get b i = None ->
  countMark p (assign b i (Mark q))
  = countMark p b + (if decide (q = p) then 1 else 0).
Proof.
  intros Hget. unfold assign. destruct (Nat.ltb_spec i (length b)) as [Hlt|Hge].
  - destruct (lookup_lt_is_Some_2 b i Hlt) as [v Hv].
    rewrite insert_take_drop by done.
    rewrite <- (take_drop_middle b i v Hv) at 3.
    rewrite !countMark_app, !countMark_cons.
    unfold get in Hget. rewrite Hv in Hget.
    destruct v as [| |r]; [| |done]; repeat case_decide; simplify_eq; lia.
  - rewrite !countMark_app, countMark_holes, countMark_cons.
    change (countMark p []) with 0.
    repeat case_decide; simplify_eq; lia.
Qed.



End Games.

(** ** The computer's timer always finds a move *)

Section Progress.

Import App.

Lemma spread_solid (sq : array) : 9 <= length sq -> solid (spread sq).
Proof.
  intros Hlen. unfold spread. split; [by rewrite length_fmap|].
  apply Forall_fmap, Forall_forall. intros v _. by destruct v.
Qed.

(** With a falsy value somewhere in the array the engine returns an index,
    not -1. *)
Lemma computeAIMove_nonneg (b : array) p i :
  solid b -> b !! i = Some Nil -> (0 <= fst (computeAIMove b p))%Z.
Proof.
  intros Hb Hi. rewrite computeAIMove_unfold by done. unfold indices. cbn [fst].
  destruct (pickMove_first_best (moveScore p b) b 9 0 NegInf (-1)%Z)
    as [[-> _]|(j & _ & _ & -> & _)]; cbn [snd].
  - rewrite Z.eqb_refl. by apply (findIndex_from_found b i).
  - destruct (Z.eqb_spec (Z.of_nat j) (-1)); lia.
Qed.

Lemma aiTimeout_defined (s : State) :
  9 <= length (squares s) -> aiTimerArmed s = true -> is_Some (aiTimeout s).
Proof.
  intros Hlen Harmed. unfold aiTimeout.
  assert (every (squares s) = false) as [i Hi]%every_false.
  { unfold aiTimerArmed, isDraw, winner in Harmed.
    destruct (fst (calculateWinner (squares s))); simpl in Harmed.
    - by rewrite andb_false_r in Harmed.
    - destruct (every (squares s)); [|done]. simpl in Harmed.
      by rewrite !andb_false_r in Harmed. }
  assert (spread (squares s) !! i = Some Nil) as Hi'.
  { unfold spread. by rewrite list_lookup_fmap, Hi. }
  pose proof (computeAIMove_nonneg _ O i (spread_solid _ Hlen) Hi') as Hmove.
  destruct (Z.ltb_spec (fst (computeAIMove (spread (squares s)) O)) 0); [lia|done].
Qed.

Lemma length_dispatch (s : State) ev s' :
  9 <= length (squares s) -> dispatch s ev = Some s' -> 9 <= length (squares s').
Proof.
  intros Hlen. destruct ev as [i| | |val|]; try (by intros [= <-]).
  - intros [->|(j & _ & _ & _ & ->)]%dispatch_move; [done| |exact I].
    cbn [squares]. pose proof (length_assign (squares s) j (Mark (if xIsNext s then X else O))).
    lia.
  - intros [->|(j & _ & _ & _ & ->)]%dispatch_move; [done| |exact I].
    cbn [squares]. pose proof (length_assign (squares s) j (Mark (if xIsNext s then X else O))).
    lia.
Qed.

Lemma dispatch_defined (s : State) ev :
  9 <= length (squares s) -> is_Some (dispatch s ev).
Proof.
  intros Hlen. unfold dispatch. destruct ev as [i| | |val|]; try done. simpl.
  destruct (aiTimerArmed s) eqn:Harmed; [|done].
  by destruct (aiTimeout_defined s Hlen Harmed) as [us ->].
Qed.

(** Every sequence of events can be run from the initial state: the timer's
    callback never calls [handleSquareClick] with -1. *)
Lemma run_defined (stored : Score) (evs : list event) :
  is_Some (run (initial stored) evs).
Proof.
  assert (9 <= length (squares (initial stored))) as Hlen by (simpl; lia).
  revert Hlen. generalize (initial stored). induction evs as [|ev evs IH]; intros s Hlen.
  - done.
  - simpl. destruct (dispatch_defined s ev Hlen) as [s1 Hs1]. rewrite Hs1.
    apply IH. by eapply length_dispatch.
Qed.

End Progress.

(** C8. Restart: from every state, restarting empties the board, gives the
    move to X and makes the status ongoing, and keeps the mode and the three
    counters; changing the mode sets the mode and then does exactly that. *)
Theorem restart_resets (s : App.State) :
  App.dispatch s App.Restart
  = Some (App.mkState (App.mode s) emptyBoard true App.ongoing (App.score s))
  /\ (length emptyBoard = 9 /\ forall i, get emptyBoard i = None)
  /\ forall val,
       App.handleModeChange val = App.setMode val :: App.handleRestart
       /\ App.dispatch s (App.ModeChange val)
          = App.dispatch (App.apply s (App.setMode val)) App.Restart
       /\ App.dispatch s (App.ModeChange val)
          = Some (App.mkState val emptyBoard true App.ongoing (App.score s)).
Proof.
  split; [done|]. split; [|done]. split; [done|].
  intros i. unfold get, emptyBoard.
  destruct (replicate 9 Nil !! i) as [c|] eqn:Hi; [|done].
  by apply lookup_replicate_1 in Hi as [-> _].
Qed.


(** What that click does: it appends a tenth cell holding X and passes the
    turn to O. *)
Lemma click_out_of_range_effect :
  App.dispatch (App.initial noScore) (App.Click 9)
  = Some (App.mkState App.pvp (emptyBoard ++ [Mark X]) false App.ongoing noScore).
Proof. reflexivity. Qed.



(** ** The quick evaluation agrees with the engine *)

Section Quick.

Variable aiPlayer : player.

Lemma board9_cells (b : array) :
  board9 b ->
  exists c0 c1 c2 c3 c4 c5 c6 c7 c8,
    b = [c0; c1; c2; c3; c4; c5; c6; c7; c8] /\ Forall (fun c => c <> Hole) b.
Proof.
  intros Hb. pose proof (board9_length b Hb) as Hlen.
  destruct (board9_solid b Hb) as [_ Hall].
  do 9 (destruct b as [|? b]; [discriminate|]).
  destruct b; [|discriminate]. by repeat eexists.
Qed.

Lemma scanLines_owner3 (b : array) a1 a2 a3 x y z rest :
  b !! a1 = Some x -> b !! a2 = Some y -> b !! a3 = Some z ->
  fst (scanLines b ((a1, a2, a3) :: rest))
  = match owner3 x y z with
    | Some p => Some p
    | None => fst (scanLines b rest)
    end.
Proof.
  intros H1 H2 H3. cbn [scanLines]. unfold lineWon, get. cbn [fst snd].
  rewrite H1, H2, H3.
  destruct x as [| |[|]], y as [| |[|]], z as [| |[|]]; reflexivity.
Qed.

Lemma quickWinner_eq c0 c1 c2 c3 c4 c5 c6 c7 c8 :
  quickWinner [c0; c1; c2; c3; c4; c5; c6; c7; c8]
  = fst (calculateWinner [c0; c1; c2; c3; c4; c5; c6; c7; c8]).
Proof.
  unfold calculateWinner, lines.
  do 8 (erewrite scanLines_owner3 by reflexivity). reflexivity.
Qed.

Lemma quickFull_eq (b : array) : board9 b -> quickFull b = every b.
Proof.
  intros (c0 & c1 & c2 & c3 & c4 & c5 & c6 & c7 & c8 & -> & Hall)%board9_cells.
  repeat match goal with
         | H : Forall _ (?c :: _) |- _ =>
             apply Forall_cons in H as [? H]; destruct c as [| |?]; [done|done|]
         end.
  reflexivity.
Qed.

Lemma mergeMove_quickStep rec (b : array) d m best i c :
  b !! i = Some c ->
  mergeMove aiPlayer rec b d m best i
  = quickStep (if m then num_max else num_min)
      (fun b' => rec b' (d + 1)%Z (negb m)) c
      (assign b i (Mark (if m then aiPlayer else humanOf aiPlayer))) best.
Proof.
  intros Hc. unfold mergeMove, quickStep, get. rewrite Hc.
  by destruct c as [| |p]; destruct m.
Qed.

Lemma quickLoop_fold rec c0 c1 c2 c3 c4 c5 c6 c7 c8 d m best :
  fold_left (mergeMove aiPlayer rec [c0; c1; c2; c3; c4; c5; c6; c7; c8] d m)
    indices best
  = quickLoop (if m then aiPlayer else humanOf aiPlayer)
      (if m then num_max else num_min)
      (fun b => rec b (d + 1)%Z (negb m))
      [c0; c1; c2; c3; c4; c5; c6; c7; c8] best.
Proof.
  unfold indices. cbn [seq fold_left].
  do 9 (erewrite mergeMove_quickStep by reflexivity). reflexivity.
Qed.

Lemma quickMinimax_eq fuel (b : array) d m :
  quickMinimax fuel aiPlayer b d m
  = match quickWinner b with
    | Some w =>
        if player_eqb w aiPlayer then Fin (10 - d)%Z else Fin (d - 10)%Z
    | None =>
        if quickFull b then Fin 0%Z
        else
          match fuel with
          | 0 => Fin 0%Z
          | S fuel' =>
              quickLoop (if m then aiPlayer else humanOf aiPlayer)
                (if m then num_max else num_min)
                (fun b' => quickMinimax fuel' aiPlayer b' (d + 1)%Z (negb m))
                b (if m then NegInf else PosInf)
          end
    end.
Proof. by destruct fuel. Qed.

Lemma minimax_go_0 (b : array) d m :
  minimax_go 0 aiPlayer b d m
  = (minimaxBody aiPlayer (fun _ _ _ => Fin 0%Z) b d m, b)
  \/ (fst (calculateWinner b) = None /\ every b = false
      /\ minimax_go 0 aiPlayer b d m = (Fin 0%Z, b)).
Proof.
  unfold minimaxBody. simpl.
  destruct (cell_eqb _ (Some aiPlayer)) eqn:H1; [by left|].
  destruct (cell_eqb _ (Some (humanOf aiPlayer))) eqn:H2; [by left|].
  destruct (every b) eqn:H3; [by left|]. right.
  destruct (fst (calculateWinner b)) as [w|]; [|done].
  destruct aiPlayer, w; simpl in *; congruence.
Qed.

(** The two score functions agree on every board, at every fuel. *)
Lemma quick_minimax fuel : forall (b : array) d m,
  board9 b -> fst (minimax_go fuel aiPlayer b d m) = quickMinimax fuel aiPlayer b d m.
Proof.
  assert (forall (b : array) d rest,
            board9 b ->
            (let winner := fst (calculateWinner b) in
             if cell_eqb winner (Some aiPlayer) then Fin (10 - d)%Z
             else if cell_eqb winner (Some (humanOf aiPlayer)) then Fin (d - 10)%Z
             else if every b then Fin 0%Z else rest)
            = match quickWinner b with
              | Some w =>
                  if player_eqb w aiPlayer then Fin (10 - d)%Z else Fin (d - 10)%Z
              | None => if quickFull b then Fin 0%Z else rest
              end) as Hbase.
  { intros b d rest Hb. rewrite (quickFull_eq b Hb).
    destruct (board9_cells b Hb) as (c0 & c1 & c2 & c3 & c4 & c5 & c6 & c7 & c8 & -> & _).
    rewrite quickWinner_eq. cbv zeta.
    destruct (fst (calculateWinner _)) as [w|]; [|done].
    destruct aiPlayer, w; reflexivity. }
  induction fuel as [|fuel IH]; intros b d m Hb; rewrite quickMinimax_eq.
  - rewrite <- (Hbase b d (Fin 0%Z) Hb).
    unfold minimax_go.
    destruct (cell_eqb _ (Some aiPlayer)); [done|].
    destruct (cell_eqb _ (Some (humanOf aiPlayer))); [done|].
    by destruct (every b).
  - rewrite minimax_go_step
      by (by apply board9_solid || (intros; by apply minimax_go_restores)).
    cbn [fst]. unfold minimaxBody. rewrite <- Hbase by done. cbv zeta.
    do 3 (destruct (_ : bool); [done|]).
    rewrite (fold_left_agree _
               (mergeMove aiPlayer (fun b' d' m' => quickMinimax fuel aiPlayer b' d' m') b d m)).
    + destruct (board9_cells b Hb) as (c0 & c1 & c2 & c3 & c4 & c5 & c6 & c7 & c8 & -> & _).
      apply quickLoop_fold.
    + intros best i Hi%elem_of_indices. unfold mergeMove.
      destruct (get b i) eqn:Hget; [done|]. cbn [truthy].
      rewrite IH; [done|]. by apply board9_assign.
Qed.

Lemma fold_pickMove_agree (score score' : nat -> num) (b : array) (l : list nat) :
  (forall i, i ∈ l -> get b i = None -> score i = score' i) ->
  forall st, fold_left (pickMove score b) l st = fold_left (pickMove score' b) l st.
Proof.
  intros Hagree. apply fold_left_agree. intros st i Hi. unfold pickMove.
  destruct (get b i) eqn:Hget; [done|]. by rewrite Hagree.
Qed.

(** [quickMove] is the move of [computeAIMove]. *)
Lemma quickMove_eq (b : array) :
  board9 b -> fst (computeAIMove b aiPlayer) = quickMove aiPlayer b.
Proof.
  intros Hb. rewrite computeAIMove_unfold by (by apply board9_solid).
  cbn [fst]. unfold quickMove. cbv zeta.
  rewrite (fold_pickMove_agree _
             (fun i => quickMinimax (S (emptyCount (assign b i (Mark aiPlayer))))
                         aiPlayer (assign b i (Mark aiPlayer)) 0%Z false)); [done|].
  intros i Hi%elem_of_indices Hget. unfold moveScore, minimax.
  apply quick_minimax. by apply board9_assign.
Qed.

End Quick.

Section QuickPlay.

Lemma spread_board9 (b : array) : board9 b -> spread b = b.
Proof.
  intros Hb. destruct (board9_solid b Hb) as [_ Hall]. unfold spread. clear Hb.
  induction Hall as [|c l Hc _ IH]; [done|].
  rewrite fmap_cons, IH. by destruct c.
Qed.

Lemma findIndex_from_below (b : array) : forall k,
  (findIndex_from k b < k + Z.of_nat (length b))%Z \/ findIndex_from k b = (-1)%Z.
Proof.
  induction b as [|c b IH]; intros k; [by right|].
  cbn [findIndex_from length]. destruct c; try (left; lia).
  destruct (IH (k + 1)%Z); [left; lia|by right].
Qed.

(** On a board the engine returns -1 or one of the indices 0-8. *)
Lemma computeAIMove_range (b : array) p :
  board9 b -> (-1 <= fst (computeAIMove b p) < 9)%Z.
Proof.
  intros Hb. rewrite computeAIMove_unfold by (by apply board9_solid).
  unfold indices. cbn [fst].
  destruct (pickMove_first_best (moveScore p b) b 9 0 NegInf (-1)%Z)
    as [[-> _]|(j & Hj & _ & -> & _)]; cbn [snd].
  - rewrite Z.eqb_refl. unfold findIndex.
    pose proof (findIndex_from_range b 0%Z ltac:(lia)).
    pose proof (findIndex_from_below b 0%Z) as Hlt.
    rewrite (board9_length b Hb) in Hlt. lia.
  - destruct (Z.eqb_spec (Z.of_nat j) (-1)); lia.
Qed.

Lemma selfPlay_quick plies : forall (b : array) t,
  board9 b -> selfPlay plies b t = quickSelfPlay plies b t.
Proof.
  induction plies as [|plies IH]; intros b t Hb; [done|].
  cbn [selfPlay quickSelfPlay]. destruct (gameOn b); [|done]. cbv zeta.
  rewrite (spread_board9 b Hb), (quickMove_eq t b Hb).
  destruct (Z.ltb_spec (quickMove t b) 0) as [Hneg|Hpos]; [done|].
  apply IH. apply board9_assign; [done| |done].
  pose proof (computeAIMove_range b t Hb) as Hrange.
  rewrite (quickMove_eq t b Hb) in Hrange. lia.
Qed.

End QuickPlay.

(** ** Games against the engine *)

Section Unbeaten.

Variable aiPlayer : player.

Lemma safe_eq plies (board : array) turn :
  safe plies aiPlayer board turn
  = negb (cell_eqb (fst (calculateWinner board)) (Some (humanOf aiPlayer)))
    && (if gameOn board then
          match plies with
          | 0 => false
          | S plies' =>
              if player_eqb turn aiPlayer then
                let move := quickMove aiPlayer board in
                (0 <=? move)%Z && (move <? 9)%Z
                && negb (truthy (get board (Z.to_nat move)))
                && safe plies' aiPlayer
                     (assign board (Z.to_nat move) (Mark aiPlayer)) (humanOf aiPlayer)
              else
                forallb
                  (fun i =>
                     truthy (get board i)
                     || safe plies' aiPlayer
                          (assign board i (Mark (humanOf aiPlayer))) aiPlayer)
                  indices
          end
        else true).
Proof. by destruct plies. Qed.

(** The check covers every position play can reach. *)
Lemma safe_sound plies : forall (board : array) turn pos,
  board9 board ->
  safe plies aiPlayer board turn = true ->
  reaches aiPlayer (board, turn) pos ->
  fst (calculateWinner (fst pos)) <> Some (humanOf aiPlayer)
  /\ (snd pos = aiPlayer -> gameOn (fst pos) = true ->
      exists move,
        fst (computeAIMove (spread (fst pos)) aiPlayer) = Z.of_nat move
        /\ move < 9 /\ get (fst pos) move = None).
Proof.
  induction plies as [|plies IH]; intros board turn pos Hb;
    rewrite safe_eq; intros [Hwin Hrest]%andb_true_iff Hreach;
    apply negb_true_iff in Hwin;
    inversion Hreach as [pos' Heq1 Heq2|b m pos' Hon Hmove Hnext Heq1 Heq2
                        |b i pos' Hon Hi Hget Hnext Heq1 Heq2]; subst; cbn [fst snd].
  - split.
    + intros Hw. rewrite Hw in Hwin. by rewrite (proj2 (cell_eqb_eq _ _) eq_refl) in Hwin.
    + intros -> Hon. by rewrite Hon in Hrest.
  - by rewrite Hon in Hrest.
  - by rewrite Hon in Hrest.
  - split.
    + intros Hw. rewrite Hw in Hwin. by rewrite (proj2 (cell_eqb_eq _ _) eq_refl) in Hwin.
    + intros -> Hon. rewrite Hon in Hrest.
      rewrite (proj2 (player_eqb_eq _ _) eq_refl) in Hrest. cbv zeta in Hrest.
      apply andb_true_iff in Hrest as [Hrest _].
      apply andb_true_iff in Hrest as [Hrest Hfree].
      apply andb_true_iff in Hrest as [Hlo Hhi].
      apply Z.leb_le in Hlo. apply Z.ltb_lt in Hhi. apply negb_true_iff in Hfree.
      rewrite (spread_board9 board Hb), (quickMove_eq _ board Hb).
      exists (Z.to_nat (quickMove aiPlayer board)).
      split; [lia|]. split; [lia|].
      by destruct (get board _).
  - rewrite Hon in Hrest.
    rewrite (proj2 (player_eqb_eq _ _) eq_refl) in Hrest. cbv zeta in Hrest.
    match type of Hmove with
    | context [spread ?B] =>
        rewrite (spread_board9 B Hb), (quickMove_eq _ B Hb) in Hmove
    end.
    apply andb_true_iff in Hrest as [Hrest Hsafe].
    apply andb_true_iff in Hrest as [Hrest _].
    apply andb_true_iff in Hrest as [_ Hhi]. apply Z.ltb_lt in Hhi.
    rewrite Hmove, Nat2Z.id in Hsafe.
    match type of Hnext with
    | reaches _ (assign ?B ?M ?V, _) _ =>
        assert (board9 (assign B M V)) as Hb'
          by (apply board9_assign; [done|lia|done])
    end.
    by apply (IH _ _ _ Hb' Hsafe).
  - rewrite Hon in Hrest.
    assert (player_eqb (humanOf aiPlayer) aiPlayer = false) as Hne
      by (by destruct aiPlayer).
    rewrite Hne in Hrest. rewrite forallb_forall in Hrest.
    specialize (Hrest i). rewrite Hget in Hrest. cbn [truthy orb] in Hrest.
    match type of Hnext with
    | reaches _ (assign ?B ?M ?V, _) _ =>
        assert (board9 (assign B M V)) as Hb' by (by apply board9_assign)
    end.
    apply (IH _ aiPlayer _ Hb'); [|done].
    apply Hrest, list_elem_of_In. by apply elem_of_indices.
Qed.

End Unbeaten.

(** The game the engine plays against itself is one of the games covered:
    X opens at 0, and O answers 4, 2, 3 and 7. *)
Lemma selfPlay_reached :
  reaches X (emptyBoard, X) (selfPlay 9 emptyBoard X, O).
Proof.
  rewrite (selfPlay_quick 9 emptyBoard X eq_refl).
  replace (quickSelfPlay 9 emptyBoard X)
    with [Mark X; Mark X; Mark O; Mark O; Mark O; Mark X; Mark X; Mark O; Mark X]
    by (vm_compute; reflexivity).
  assert (forall (b : array) m,
            board9 b -> quickMove X b = Z.of_nat m ->
            fst (computeAIMove (spread b) X) = Z.of_nat m) as Hengine.
  { intros b m Hb <-. by rewrite spread_board9, quickMove_eq. }
  apply (reaches_engine X _ 0);
    [reflexivity|apply Hengine; [reflexivity|vm_compute; reflexivity]|].
  apply (reaches_opponent X _ 4); [reflexivity|lia|reflexivity|].
  apply (reaches_engine X _ 1);
    [reflexivity|apply Hengine; [reflexivity|vm_compute; reflexivity]|].
  apply (reaches_opponent X _ 2); [reflexivity|lia|reflexivity|].
  apply (reaches_engine X _ 6);
    [reflexivity|apply Hengine; [reflexivity|vm_compute; reflexivity]|].
  apply (reaches_opponent X _ 3); [reflexivity|lia|reflexivity|].
  apply (reaches_engine X _ 5);
    [reflexivity|apply Hengine; [reflexivity|vm_compute; reflexivity]|].
  apply (reaches_opponent X _ 7); [reflexivity|lia|reflexivity|].
  apply (reaches_engine X _ 8);
    [reflexivity|apply Hengine; [reflexivity|vm_compute; reflexivity]|].
  apply reaches_here.
Qed.

(** C7. Score accounting: over the move attempts of one game, started in a
    state where the game is on, the score stays as it was while the game
    goes on, and once the game is over exactly the counter of the outcome is
    one higher and the other two are as before, whatever further move
    attempts follow: the counter is raised once, by the move that ends the
    game. *)
Theorem score_counted_once (s : App.State) (evs : list App.event) (s' : App.State) :
  settled s -> terminal s = false -> Forall isMove evs ->
  App.run s evs = Some s' ->
  match App.winner s' with
  | Some X =>
      App.score s'
      = App.mkScore (App.scoreX (App.score s) + 1) (App.scoreO (App.score s))
          (App.scoreD (App.score s))
  | Some O =>
      App.score s'
      = App.mkScore (App.scoreX (App.score s)) (App.scoreO (App.score s) + 1)
          (App.scoreD (App.score s))
  | None =>
      if isDraw (App.squares s') then
        App.score s'
        = App.mkScore (App.scoreX (App.score s)) (App.scoreO (App.score s))
            (App.scoreD (App.score s) + 1)
      else App.score s' = App.score s
  end.
Proof.
  intros Hs Ht Hevs Hrun.
  rewrite (run_scoreAfter evs s s' Hs Ht Hevs Hrun).
  unfold scoreAfter, App.winner.
  destruct (fst (calculateWinner (App.squares s'))) as [[|]|]; [done..|].
  by destruct (isDraw (App.squares s')).
Qed.

Lemma score_counted_once_witness :
  exists s',
    App.run (App.initial noScore) topRowGame = Some s'
    /\ App.winner s' = Some X
    /\ App.score s' = App.mkScore 1 0 0.
Proof.
  eexists. split; [vm_compute; reflexivity|]. split; [vm_compute; reflexivity|].
  pose proof (score_counted_once (App.initial noScore) topRowGame) as Hscore.
  match goal with |- App.score ?s = _ => specialize (Hscore s) end.
  assert (settled (App.initial noScore)) as Hs by reflexivity.
  assert (terminal (App.initial noScore) = false) as Ht by reflexivity.
  assert (Forall isMove topRowGame) as Hevs by (unfold topRowGame; repeat constructor).
  specialize (Hscore Hs Ht Hevs ltac:(vm_compute; reflexivity)).
  vm_compute in Hscore. vm_compute. exact Hscore.
Defined.

(** C1. The engine is never beaten: in a game played from the empty board in
    which every move of the computer, whether it plays X or O, is the engine's
    answer and the opponent plays any empty cells, no position shows a line
    of the opponent, and the engine always answers with an empty cell while
    the game goes on; and when the engine plays both sides, alternating
    symbols, the game ends in a draw. *)
Theorem engine_never_loses :
  (forall aiPlayer board turn,
     reaches aiPlayer (emptyBoard, X) (board, turn) ->
     fst (calculateWinner board) <> Some (humanOf aiPlayer))
  /\ (forall aiPlayer board,
        reaches aiPlayer (emptyBoard, X) (board, aiPlayer) ->
        gameOn board = true ->
        exists move,
          fst (computeAIMove (spread board) aiPlayer) = Z.of_nat move
          /\ move < 9 /\ get board move = None)
  /\ (gameOn (selfPlay 9 emptyBoard X) = false
      /\ fst (calculateWinner (selfPlay 9 emptyBoard X)) = None
      /\ isDraw (selfPlay 9 emptyBoard X) = true).
Proof.
  assert (board9 emptyBoard) as Hb by reflexivity.
  assert (forall aiPlayer, safe 9 aiPlayer emptyBoard X = true) as Hsafe.
  { intros [|]; vm_compute; reflexivity. }
  split; [|split].
  - intros aiPlayer board turn Hreach.
    by destruct (safe_sound aiPlayer 9 emptyBoard X _ Hb (Hsafe aiPlayer) Hreach).
  - intros aiPlayer board Hreach Hon.
    destruct (safe_sound aiPlayer 9 emptyBoard X _ Hb (Hsafe aiPlayer) Hreach)
      as [_ Hmove].
    by apply Hmove.
  - rewrite (selfPlay_quick 9 emptyBoard X Hb). vm_compute. done.
Qed.

(** * Further properties of the component *)

Section Accounting.

Import App.

Implicit Types (s : State) (ev : event).

(** The outcome of a click handled with index [i]: nothing, or the mark on
    cell [i] and the game-over effect's verdict on the new board. *)
Lemma click_outcome s i isAI :
  (if replacesSquares (handleSquareClick s i isAI)
   then commit (commit s (handleSquareClick s i isAI))
          (gameOverEffect (commit s (handleSquareClick s i isAI)))
   else commit s (handleSquareClick s i isAI)) = s
  \/ (get (squares s) i = None /\ winner s = None /\ (status s = draw -> False)
      /\ (if replacesSquares (handleSquareClick s i isAI)
         then commit (commit s (handleSquareClick s i isAI))
                (gameOverEffect (commit s (handleSquareClick s i isAI)))
         else commit s (handleSquareClick s i isAI))
         = mkState (mode s)
             (assign (squares s) i (Mark (if xIsNext s then X else O)))
             (negb (xIsNext s))
             (statusOf (assign (squares s) i (Mark (if xIsNext s then X else O))))
             (scoreAfter (assign (squares s) i (Mark (if xIsNext s then X else O)))
                (score s))).
Proof.
  destruct (handleSquareClick_cases s i isAI) as [->|(Hget & Hw & Hst & ->)].
  - by left.
  - right. cbn [replacesSquares existsb orb]. by rewrite commit_gameOverEffect.
Qed.


Lemma length_run evs : forall s s',
  9 <= length (squares s) -> run s evs = Some s' -> 9 <= length (squares s').
Proof.
  induction evs as [|ev evs IH]; intros s s' Hlen; simpl.
  - by intros [= <-].
  - destruct (dispatch s ev) as [s1|] eqn:Hd; [|done].
    apply IH. by eapply length_dispatch.
Qed.

End Accounting.

(** X1. The status is derived from the board: in every state the component
    reaches, the status is ["win"] exactly when the board has a winner,
    ["draw"] exactly when it is a draw, and ["ongoing"] otherwise. *)
Theorem status_is_derived (stored : App.Score) (evs : list App.event) (s : App.State) :
  App.run (App.initial stored) evs = Some s ->
  (App.status s = App.win <-> exists p, App.winner s = Some p)
  /\ (App.status s = App.draw
      <-> App.winner s = None /\ isDraw (App.squares s) = true)
  /\ (App.status s = App.ongoing
      <-> App.winner s = None /\ isDraw (App.squares s) = false).
Proof.
  intros Hrun.
  pose proof (settled_run evs _ _ (settled_initial stored) Hrun) as Hs.
  unfold settled, statusOf in Hs. unfold App.winner. rewrite Hs.
  destruct (fst (calculateWinner (App.squares s))) as [p|].
  - split; [|split]; split; try done; try (intros [? ?]; done). by exists p.
  - destruct (isDraw (App.squares s));
      split; [|split| |split]; split; try done; try (intros [? ?]; done).
Qed.

Lemma status_is_derived_witness :
  exists s,
    App.run (App.initial noScore) topRowGame = Some s
    /\ (App.status s = App.win <-> exists p, App.winner s = Some p).
Proof.
  eexists. split; [vm_compute; reflexivity|].
  pose proof (status_is_derived noScore topRowGame) as Hder.
  match goal with |- App.status ?s = _ <-> _ => specialize (Hder s) end.
  specialize (Hder ltac:(vm_compute; reflexivity)).
  exact (proj1 Hder).
Defined.



(** X3. Resetting the scores sets the three counters to zero and touches
    nothing else; a game that is already over is not counted again by the
    move attempts that follow. *)
Theorem reset_not_recounted (s : App.State) (evs : list App.event) (s' : App.State) :
  settled s -> terminal s = true -> Forall isMove evs ->
  App.run s (App.ResetScores :: evs) = Some s' ->
  s' = App.mkState (App.mode s) (App.squares s) (App.xIsNext s) (App.status s)
         (App.mkScore 0 0 0).
Proof.
  intros Hs Ht Hevs. cbn [App.run]. unfold App.dispatch. cbn.
  apply run_terminal; done.
Qed.

Lemma reset_not_recounted_witness :
  exists s s',
    App.run (App.initial noScore) topRowGame = Some s
    /\ App.score s = App.mkScore 1 0 0
    /\ App.run s [App.ResetScores; App.Click 8; App.Click 5] = Some s'
    /\ s' = App.mkState (App.mode s) (App.squares s) (App.xIsNext s) (App.status s)
              (App.mkScore 0 0 0).
Proof.
  eexists. eexists. split; [vm_compute; reflexivity|]. split; [reflexivity|].
  split; [vm_compute; reflexivity|].
  match goal with
  | |- ?t = App.mkState (App.mode ?s) _ _ _ _ =>
      apply (reset_not_recounted s [App.Click 8; App.Click 5] t);
        [reflexivity|reflexivity|repeat constructor|vm_compute; reflexivity]
  end.
Defined.

(** X4. In computer mode a click never puts an O on the board: whatever the
    state and the index, the number of O stays as it was. *)
Theorem click_never_places_O (s : App.State) (i : nat) (s' : App.State) :
  App.mode s = App.ai ->
  App.dispatch s (App.Click i) = Some s' ->
  countMark O (App.squares s') = countMark O (App.squares s).
Proof.
  intros Hmode. unfold App.dispatch. cbn [App.handle]. cbv zeta. intros [= <-].
  destruct (App.xIsNext s) eqn:Hturn.
  - destruct (click_outcome s i false) as [->|(Hget & _ & _ & ->)]; [done|].
    cbn [App.squares]. rewrite countMark_assign by done. rewrite Hturn.
    by rewrite decide_False.
  - unfold App.handleSquareClick. rewrite Hmode, Hturn. cbn.
    by destruct (_ || _).
Qed.

Lemma click_never_places_O_witness :
  exists s',
    App.dispatch
      (App.mkState App.ai (assign emptyBoard 4 (Mark X)) false App.ongoing noScore)
      (App.Click 0) = Some s'
    /\ countMark O (App.squares s') = 0.
Proof.
  eexists. split; [vm_compute; reflexivity|].
  rewrite (click_never_places_O
             (App.mkState App.ai (assign emptyBoard 4 (Mark X)) false App.ongoing noScore)
             0 _ eq_refl ltac:(vm_compute; reflexivity)).
  reflexivity.
Defined.

Section Rendering.

Import App.

Lemma shownBoard_squares (sq : array) (wl : option line) :
  concat (View.Board sq wl) = View.renderSquare sq wl <$> seq 0 9.
Proof. reflexivity. Qed.

Lemma offered_range (s : State) i : offered s (Click i) <-> i < 9.
Proof.
  unfold offered, View.shownBoard. rewrite shownBoard_squares, <- list_fmap_compose.
  rewrite list_elem_of_fmap. split.
  - intros (j & -> & Hj%elem_of_seq). simpl. lia.
  - intros Hi. exists i. split; [done|]. apply elem_of_seq. lia.
Qed.

Lemma winner_line (sq : array) :
  (fst (calculateWinner sq) = None /\ snd (calculateWinner sq) = None)
  \/ exists p l,
       fst (calculateWinner sq) = Some p /\ snd (calculateWinner sq) = Some l
       /\ l ∈ lines /\ ownsLine sq p l.
Proof.
  unfold calculateWinner.
  destruct (scanLines_shape sq lines) as [Hnone|(p & l & Hsome)].
  - left. by rewrite Hnone.
  - right. exists p, l. rewrite Hsome. split; [done|]. split; [done|].
    apply scanLines_sound in Hsome as (pre & post & Heq & _ & Hown).
    split; [|done]. rewrite Heq. apply elem_of_app. right. apply elem_of_cons. by left.
Qed.

Lemma includes_spec (l : line) i :
  View.includes l i = true
  <-> i = fst (fst l) \/ i = snd (fst l) \/ i = snd l.
Proof.
  destruct l as [[a b] c]. unfold View.includes. cbn [fst snd].
  rewrite !orb_true_iff, !Nat.eqb_eq. intuition congruence.
Qed.

End Rendering.

(** X5. What the board shows: nine squares, keyed 0-8 in row-major order,
    each showing its cell and reporting its own index when clicked; a square
    is highlighted only when there is a winner and the square holds the
    winner's symbol, and exactly three squares are highlighted when there is
    a winner, none otherwise. *)
Theorem board_highlights_winner (s : App.State) :
  concat (View.shownBoard s)
  = (fun i =>
       View.mkSquare i (get (App.squares s) i) i
         (View.highlight (View.renderSquare (App.squares s) (App.winningLine s) i)))
    <$> seq 0 9
  /\ (forall sq,
        sq ∈ concat (View.shownBoard s) -> View.highlight sq = true ->
        exists p, App.winner s = Some p /\ View.value sq = Some p)
  /\ length (filter (fun sq => View.highlight sq = true) (concat (View.shownBoard s)))
     = match App.winner s with Some _ => 3 | None => 0 end.
Proof.
  unfold View.shownBoard, App.winner, App.winningLine.
  rewrite shownBoard_squares. split; [reflexivity|].
  destruct (winner_line (App.squares s)) as [[-> ->]|(p & l & -> & -> & Hl & Hown)].
  - split; [|reflexivity].
    intros sq (i & -> & _)%list_elem_of_fmap. done.
  - split.
    + intros sq (i & -> & _)%list_elem_of_fmap. cbn [View.renderSquare View.highlight].
      intros Hin%includes_spec. exists p. split; [done|]. cbn [View.value].
      destruct Hown as (Ha & Hb & Hc). by destruct Hin as [->|[->| ->]].
    + clear Hown. unfold lines in Hl.
      repeat (apply elem_of_cons in Hl as [->|Hl]; [reflexivity|]).
      by apply elem_of_nil in Hl.
Qed.



Section ComputerTurn.

Import App.

Lemma get_spread (sq : array) i : get (spread sq) i = get sq i.
Proof.
  unfold get, spread. rewrite list_lookup_fmap.
  by destruct (sq !! i) as [[| |p]|].
Qed.

Lemma findIndex_from_cell (b : array) : forall i k,
  b !! i = Some Nil ->
  exists m, findIndex_from k b = (k + Z.of_nat m)%Z /\ get b m = None.
Proof.
  induction b as [|c b IH]; intros i k Hi; [done|].
  destruct c as [| |p].
  - exists 0. split; [simpl; lia|done].
  - exists 0. split; [simpl; lia|done].
  - destruct i as [|i]; [done|].
    destruct (IH i (k + 1)%Z Hi) as (m & Hm & Hget).
    exists (S m). split; [|done]. cbn [findIndex_from]. lia.
Qed.

(** With an empty cell on the array, the engine returns the index of a cell
    that reads as empty. *)
Lemma computeAIMove_empty_cell (b : array) p i :
  solid b -> b !! i = Some Nil ->
  exists m, fst (computeAIMove b p) = Z.of_nat m /\ get b m = None.
Proof.
  intros Hb Hi. rewrite computeAIMove_unfold by done. unfold indices. cbn [fst].
  destruct (pickMove_first_best (moveScore p b) b 9 0 NegInf (-1)%Z)
    as [[-> _]|(j & _ & Hget & -> & _)]; cbn [snd].
  - rewrite Z.eqb_refl. unfold findIndex.
    destruct (findIndex_from_cell b i 0%Z Hi) as (m & -> & Hget).
    exists m. split; [lia|done].
  - exists j. split; [|done]. by destruct (Z.eqb_spec (Z.of_nat j) (-1)); [lia|].
Qed.

Lemma armed_facts (s : State) :
  aiTimerArmed s = true ->
  mode s = ai /\ winner s = None /\ isDraw (squares s) = false /\ xIsNext s = false.
Proof.
  unfold aiTimerArmed. intros Harmed.
  apply andb_true_iff in Harmed as [Harmed Hturn].
  apply andb_true_iff in Harmed as [Harmed Hdraw].
  apply andb_true_iff in Harmed as [Hmode Hwin].
  apply mode_eqb_eq in Hmode. apply negb_true_iff in Hwin, Hdraw, Hturn.
  split; [done|]. split; [by destruct (winner s)|done].
Qed.

(** The timer's callback always lands: it marks a cell that read as empty
    with O and hands the turn to X. *)
Lemma aiTimeout_outcome (s : State) :
  settled s -> 9 <= length (squares s) -> aiTimerArmed s = true ->
  exists m,
    fst (computeAIMove (spread (squares s)) O) = Z.of_nat m
    /\ get (squares s) m = None
    /\ dispatch s AITimeout
       = Some (mkState ai (assign (squares s) m (Mark O)) true
                 (statusOf (assign (squares s) m (Mark O)))
                 (scoreAfter (assign (squares s) m (Mark O)) (score s))).
Proof.
  intros Hs Hlen Harmed.
  destruct (armed_facts s Harmed) as (Hmode & Hwin & Hdraw & Hturn).
  assert (every (squares s) = false) as [i Hi]%every_false.
  { unfold isDraw, winner in *. rewrite Hwin in Hdraw.
    by destruct (every (squares s)). }
  assert (spread (squares s) !! i = Some Nil) as Hi'.
  { unfold spread. by rewrite list_lookup_fmap, Hi. }
  destruct (computeAIMove_empty_cell _ O i (spread_solid _ Hlen) Hi') as (m & Hm & Hget).
  rewrite get_spread in Hget.
  exists m. split; [done|]. split; [done|].
  unfold dispatch. cbn [handle]. rewrite Harmed. unfold aiTimeout. cbv zeta.
  rewrite Hm. destruct (Z.ltb_spec (Z.of_nat m) 0) as [|_]; [lia|].
  rewrite Nat2Z.id. f_equal.
  destruct (handleSquareClick_cases s m true) as [Hnil|(_ & _ & _ & Hupd)].
  - exfalso. revert Hnil. unfold handleSquareClick. rewrite Hget, Hwin.
    unfold settled, statusOf, winner in *. rewrite Hs, Hwin, Hdraw. cbn.
    by rewrite andb_false_r.
  - rewrite Hupd. cbn [replacesSquares existsb orb]. rewrite commit_gameOverEffect.
    cbn. by rewrite Hmode, Hturn.
Qed.

Lemma reaches_trans p a b c : reaches p a b -> reaches p b c -> reaches p a c.
Proof.
  induction 1 as [pos|board m pos Hon Hmove _ IH|board i pos Hon Hi Hget _ IH];
    intros Hbc; [done| |].
  - eapply reaches_engine; [done..|]. by apply IH.
  - eapply reaches_opponent; [done..|]. by apply IH.
Qed.

(** An event the rendered board offers keeps the array a board. *)
Lemma dispatch_board9 (s : State) ev s' :
  board9 (squares s) -> offered s ev -> dispatch s ev = Some s' ->
  board9 (squares s').
Proof.
  intros Hb Hoff. destruct ev as [i| | |val|].
  - apply offered_range in Hoff. unfold dispatch. cbn [handle]. cbv zeta.
    intros [= <-].
    destruct (click_outcome s i false) as [->|(_ & _ & _ & ->)]; [done|].
    by apply board9_assign.
  - by intros [= <-].
  - by intros [= <-].
  - by intros [= <-].
  - unfold dispatch. cbn [handle]. destruct (aiTimerArmed s); [|by intros [= <-]].
    unfold aiTimeout. cbv zeta.
    pose proof (computeAIMove_range (squares s) O Hb) as Hrange.
    rewrite (spread_board9 _ Hb).
    destruct (Z.ltb_spec (fst (computeAIMove (squares s) O)) 0) as [|Hpos]; [done|].
    intros [= <-].
    destruct (click_outcome s (Z.to_nat (fst (computeAIMove (squares s) O))) true)
      as [->|(_ & _ & _ & ->)]; [done|].
    apply board9_assign; [done|lia|done].
Qed.

Lemma uiRun_run evs : forall (s s' : State), uiRun s evs s' -> run s evs = Some s'.
Proof.
  induction evs as [|ev evs IH]; intros s s'; simpl.
  - by intros ->.
  - intros (_ & s1 & -> & Hrest). by apply IH.
Qed.

Lemma uiRun_board9 evs : forall (s s' : State),
  board9 (squares s) -> uiRun s evs s' -> board9 (squares s').
Proof.
  induction evs as [|ev evs IH]; intros s s' Hb; simpl.
  - by intros ->.
  - intros (Hoff & s1 & Hd & Hrest). eapply IH; [|done].
    by eapply dispatch_board9.
Qed.

End ComputerTurn.

(** X7. The computer always moves: in every state the component reaches in
    which the computer's timer is pending, the timer's callback marks a cell
    that was empty with O and hands the turn to X. *)
Theorem computer_always_moves (stored : App.Score) (evs : list App.event) (s : App.State) :
  App.run (App.initial stored) evs = Some s ->
  App.aiTimerArmed s = true ->
  exists m s',
    App.dispatch s App.AITimeout = Some s'
    /\ get (App.squares s) m = None
    /\ App.squares s' = assign (App.squares s) m (Mark O)
    /\ App.xIsNext s' = true
    /\ countMark O (App.squares s') = countMark O (App.squares s) + 1
    /\ countMark X (App.squares s') = countMark X (App.squares s).
Proof.
  intros Hrun Harmed.
  pose proof (settled_run evs _ _ (settled_initial stored) Hrun) as Hs.
  assert (9 <= length (App.squares s)) as Hlen.
  { apply (length_run evs (App.initial stored)); [simpl; lia|done]. }
  destruct (aiTimeout_outcome s Hs Hlen Harmed) as (m & _ & Hget & Hd).
  exists m. eexists. split; [exact Hd|]. cbn [App.squares App.xIsNext].
  rewrite !countMark_assign by done.
  repeat split; try done; repeat case_decide; simplify_eq; lia.
Qed.

Lemma computer_always_moves_witness :
  exists s m s',
    App.run (App.initial noScore) [App.ModeChange App.ai; App.Click 4] = Some s
    /\ App.aiTimerArmed s = true
    /\ App.dispatch s App.AITimeout = Some s'
    /\ get (App.squares s) m = None
    /\ App.squares s' = assign (App.squares s) m (Mark O).
Proof.
  eexists.
  match goal with
  | |- exists m s', App.run ?s0 ?evs = Some ?s /\ _ =>
      assert (App.run s0 evs = Some s) as Hrun by (vm_compute; reflexivity);
      destruct (computer_always_moves noScore evs s Hrun ltac:(vm_compute; reflexivity))
        as (m & s' & Hd & Hget & Hsq & _)
  end.
  exists m, s'. split; [exact Hrun|]. split; [vm_compute; reflexivity|].
  split; [exact Hd|]. split; [exact Hget|exact Hsq].
Defined.

(** X8. The board stays a board: the clicks the rendered board can report
    are exactly the indices 0-8, and in a run whose clicks all come from the
    rendered board the array always has exactly nine cells, each empty, X or
    O, and the status is the one derived from it. *)
Theorem ui_keeps_nine_cells (stored : App.Score) (evs : list App.event) (s : App.State) :
  uiRun (App.initial stored) evs s ->
  (forall i, offered s (App.Click i) <-> i < 9)
  /\ length (App.squares s) = 9
  /\ (forall i, i < 9 ->
      App.squares s !! i = Some Nil \/ exists p, App.squares s !! i = Some (Mark p))
  /\ App.status s = statusOf (App.squares s).
Proof.
  intros Hui.
  assert (board9 (App.squares s)) as Hb.
  { by apply (uiRun_board9 evs (App.initial stored)). }
  split; [intros i; apply offered_range|]. split; [by apply board9_length|]. split.
  - intros i Hi. destruct (get (App.squares s) i) as [p|] eqn:Hget.
    + right. exists p. unfold get in Hget.
      by destruct (App.squares s !! i) as [[| |q]|]; simplify_eq.
    + left. by apply solid_lookup; [apply board9_solid|..].
  - apply (settled_run evs (App.initial stored)); [reflexivity|].
    by apply uiRun_run.
Qed.

Lemma ui_keeps_nine_cells_witness :
  exists s,
    uiRun (App.initial noScore) topRowGame s /\ length (App.squares s) = 9.
Proof.
  eexists.
  assert (forall s i, i < 9 -> offered s (App.Click i)) as Hoff
    by (intros s i Hi; by apply offered_range).
  match goal with
  | |- uiRun ?s0 ?evs ?s /\ _ =>
      assert (uiRun s0 evs s) as Hui
  end.
  { unfold topRowGame. cbn [uiRun].
    repeat (split; [apply Hoff; lia|]; eexists; split; [vm_compute; reflexivity|]).
    reflexivity. }
  split; [exact Hui|].
  exact (proj1 (proj2 (ui_keeps_nine_cells noScore topRowGame _ Hui))).
Defined.

Section HumanVsComputer.

Import App.

Lemma engineGame_initial stored : engineGame (initial stored).
Proof. split; [reflexivity|]. split; [reflexivity|]. discriminate. Qed.

Lemma settled_gameOn (s : State) :
  settled s -> winner s = None -> (status s = draw -> False) ->
  gameOn (squares s) = true.
Proof.
  unfold settled, statusOf, winner, gameOn. intros Hs Hw Hd. rewrite Hw in *.
  destruct (isDraw (squares s)); [by apply Hd in Hs|done].
Qed.

Lemma engineGame_dispatch (s : State) ev s' :
  engineGame s -> offered s ev -> dispatch s ev = Some s' -> engineGame s'.
Proof.
  intros (Hb & Hs & Hgame) Hoff Hd.
  split; [by eapply dispatch_board9|]. split; [by eapply settled_dispatch|].
  destruct ev as [i| | |val|].
  - apply offered_range in Hoff. revert Hd. unfold dispatch. cbn [handle]. cbv zeta.
    destruct (handleSquareClick_cases s i false) as [Hnil|(Hget & Hw & Hst & Hupd)].
    + rewrite Hnil. cbn. intros [= <-]. exact Hgame.
    + rewrite Hupd. cbn [replacesSquares existsb orb]. rewrite commit_gameOverEffect.
      cbn [commit fold_left apply mode squares xIsNext status score].
      intros [= <-]. cbn [mode squares]. unfold View.turn. cbn [xIsNext]. intros Hmode.
      destruct (xIsNext s) eqn:Hturn.
      * eapply reaches_trans; [by apply Hgame|].
        unfold View.turn. rewrite Hturn.
        apply (reaches_opponent O (squares s) i); [|done|done|apply reaches_here].
        by apply settled_gameOn.
      * exfalso. revert Hupd. unfold handleSquareClick. rewrite Hmode, Hturn. cbn.
        by destruct (_ || _).
  - injection Hd as <-. intros _. apply reaches_here.
  - injection Hd as <-. exact Hgame.
  - injection Hd as <-. intros _. apply reaches_here.
  - revert Hd. unfold dispatch at 1. cbn [handle].
    destruct (aiTimerArmed s) eqn:Harmed; [|by intros [= <-]].
    intros Hd.
    assert (dispatch s AITimeout = Some s') as Hd'.
    { unfold dispatch. cbn [handle]. by rewrite Harmed. }
    destruct (armed_facts s Harmed) as (Hmode & Hw & Hdraw & Hturn).
    destruct (aiTimeout_outcome s Hs ltac:(by rewrite (board9_length _ Hb)) Harmed)
      as (m & Hm & Hget & Hout).
    rewrite Hout in Hd'. injection Hd' as <-. intros _.
    cbn [squares]. unfold View.turn. cbn [xIsNext].
    eapply reaches_trans; [by apply Hgame|].
    unfold View.turn. rewrite Hturn.
    apply (reaches_engine O (squares s) m); [|done|apply reaches_here].
    unfold gameOn. unfold winner in Hw. by rewrite Hw, Hdraw.
Qed.

Lemma engineGame_uiRun evs : forall (s s' : State),
  engineGame s -> uiRun s evs s' -> engineGame s'.
Proof.
  induction evs as [|ev evs IH]; intros s s' Hg; simpl.
  - by intros ->.
  - intros (Hoff & s1 & Hd & Hrest). eapply IH; [|done].
    by eapply engineGame_dispatch.
Qed.

End HumanVsComputer.

(** X9. The human never beats the computer: in a run whose clicks come from
    the rendered board, whenever the mode is the computer mode the board has
    no line of X, whatever was played, restarted or switched before; so the
    status line never reads "Winner: X" there. *)
Theorem human_never_wins (stored : App.Score) (evs : list App.event) (s : App.State) :
  uiRun (App.initial stored) evs s ->
  App.mode s = App.ai ->
  App.winner s <> Some X
  /\ View.shownStatus s <> "Winner: X"%string.
Proof.
  intros Hui Hmode.
  destruct (engineGame_uiRun evs _ _ (engineGame_initial stored) Hui)
    as (Hb & Hs & Hgame).
  assert (safe 9 O emptyBoard X = true) as Hsafe by (vm_compute; reflexivity).
  destruct (safe_sound O 9 emptyBoard X _ eq_refl Hsafe (Hgame Hmode)) as [Hwin _].
  assert (App.winner s <> Some X) as Hnot by exact Hwin.
  clear Hsafe Hwin Hgame Hui Hb.
  split; [exact Hnot|].
  unfold View.shownStatus. rewrite Hs. unfold statusOf, View.turn.
  fold (App.winner s).
  destruct (App.winner s) as [[|]|]; [by destruct Hnot|discriminate|].
  rewrite Hmode. destruct (isDraw (App.squares s)), (App.xIsNext s); discriminate.
Qed.

Lemma human_never_wins_witness :
  exists s,
    uiRun (App.initial noScore) [App.ModeChange App.ai; App.Click 4; App.AITimeout] s
    /\ App.winner s <> Some X.
Proof.
  eexists.
  assert (forall s i, i < 9 -> offered s (App.Click i)) as Hoff
    by (intros s i Hi; by apply offered_range).
  match goal with
  | |- uiRun ?s0 ?evs ?s /\ _ => assert (uiRun s0 evs s) as Hui
  end.
  { cbn [uiRun].
    split; [exact I|]. eexists. split; [vm_compute; reflexivity|].
    split; [apply Hoff; lia|]. eexists. split; [vm_compute; reflexivity|].
    split; [exact I|]. eexists. split; [vm_compute; reflexivity|].
    reflexivity. }
  split; [exact Hui|].
  exact (proj1 (human_never_wins noScore _ _ Hui eq_refl)).
Defined.

(** * Further properties of the engine *)

Section LinesAndMoves.

Implicit Types (b : array) (p q : player) (l : line).

Lemma scanLines_some b (ls : list line) l :
  l ∈ ls -> lineWon b l = true -> exists p, fst (scanLines b ls) = Some p.
Proof.
  induction ls as [|l' ls IH]; intros Hin Hwon; [by apply elem_of_nil in Hin|].
  cbn [scanLines]. destruct (lineWon b l') eqn:Hl'.
  - apply lineWon_owns in Hl' as (p & Ha & _). exists p. by rewrite <- Ha.
  - apply elem_of_cons in Hin as [->|Hin]; [congruence|]. by apply IH.
Qed.

Lemma winner_owner b p :
  fst (calculateWinner b) = Some p -> exists l, l ∈ lines /\ ownsLine b p l.
Proof.
  intros Hw. destruct (winner_line b) as [[Hnone _]|(p' & l & Hp & _ & Hl & Hown)].
  - congruence.
  - exists l. by simplify_eq.
Qed.

Lemma winner_none b l q :
  fst (calculateWinner b) = None -> l ∈ lines -> ~ ownsLine b q l.
Proof.
  intros Hw Hl Hown.
  destruct (scanLines_some b lines l Hl) as [p Hp].
  - apply lineWon_owns. by exists q.
  - unfold calculateWinner in Hw. congruence.
Qed.

Lemma ownsLine_winner b p :
  (exists l, l ∈ lines /\ ownsLine b p l) ->
  (forall l, l ∈ lines -> ~ ownsLine b (humanOf p) l) ->
  fst (calculateWinner b) = Some p.
Proof.
  intros (l & Hl & Hown) Hother.
  destruct (fst (calculateWinner b)) as [q|] eqn:Hw.
  - destruct (winner_owner b q Hw) as (l' & Hl' & Hown').
    destruct (decide (q = p)) as [->|Hne]; [done|].
    exfalso. apply (Hother l' Hl').
    by replace (humanOf p) with q by (by destruct p, q).
  - by apply (winner_none b l p Hw Hl) in Hown.
Qed.

Lemma cell_assign_other b i p q c :
  get b i = None -> p <> q ->
  get (assign b i (Mark q)) c = Some p <-> get b c = Some p.
Proof.
  intros Hget Hne. destruct (decide (i = c)) as [->|Hic].
  - rewrite get_assign_eq, Hget. split; congruence.
  - by rewrite get_assign_ne.
Qed.

Lemma cell_assign_keep b i v p c :
  get b i = None -> get b c = Some p -> get (assign b i v) c = Some p.
Proof.
  intros Hget Hc. rewrite get_assign_ne; [done|]. intros ->. congruence.
Qed.

Lemma ownsLine_assign_other b i p q l :
  get b i = None -> p <> q ->
  ownsLine (assign b i (Mark q)) p l <-> ownsLine b p l.
Proof.
  intros Hget Hne. unfold ownsLine. by rewrite !cell_assign_other.
Qed.

Lemma ownsLine_assign_keep b i v p l :
  get b i = None -> ownsLine b p l -> ownsLine (assign b i v) p l.
Proof.
  intros Hget (Ha & Hb & Hc). repeat split; by apply cell_assign_keep.
Qed.

(** A move on a board without a winner can only make the mover win. *)
Lemma winner_after_move b i q :
  fst (calculateWinner b) = None -> get b i = None ->
  fst (calculateWinner (assign b i (Mark q))) = None
  \/ fst (calculateWinner (assign b i (Mark q))) = Some q.
Proof.
  intros Hw Hget. destruct (fst (calculateWinner (assign b i (Mark q)))) as [p|] eqn:Hw';
    [|by left].
  right. destruct (decide (p = q)) as [->|Hne]; [done|].
  destruct (winner_owner _ p Hw') as (l & Hl & Hown).
  apply ownsLine_assign_other in Hown; [|done..].
  by apply (winner_none b l p Hw Hl) in Hown.
Qed.

End LinesAndMoves.

Section Scoring.

Variable aiPlayer : player.

Lemma minimax_terminal (b : array) d m :
  board9 b ->
  (fst (calculateWinner b) = Some aiPlayer ->
   fst (minimax aiPlayer b d m) = Fin (10 - d)%Z)
  /\ (fst (calculateWinner b) = Some (humanOf aiPlayer) ->
      fst (minimax aiPlayer b d m) = Fin (d - 10)%Z)
  /\ (fst (calculateWinner b) = None -> every b = true ->
      fst (minimax aiPlayer b d m) = Fin 0%Z).
Proof.
  intros Hb. rewrite minimax_unfold by (by apply board9_solid). cbn [fst].
  unfold minimaxBody. split; [|split].
  - intros ->. by rewrite (proj2 (cell_eqb_eq _ _) eq_refl).
  - intros ->. destruct (cell_eqb _ (Some aiPlayer)) eqn:Hai.
    + apply cell_eqb_eq in Hai. injection Hai as Hai. by apply humanOf_neq in Hai.
    + by rewrite (proj2 (cell_eqb_eq _ _) eq_refl).
  - by intros -> ->.
Qed.

(** The score of a board on which the game goes on is the best of the scores
    of the moves open to the mover. *)
Lemma minimax_node (b : array) d m :
  board9 b -> fst (calculateWinner b) = None -> every b = false ->
  exists r,
    fst (minimax aiPlayer b d m) = Fin r
    /\ (exists i, i < 9 /\ get b i = None
          /\ fst (minimax aiPlayer
                    (assign b i (Mark (if m then aiPlayer else humanOf aiPlayer)))
                    (d + 1)%Z (negb m)) = Fin r)
    /\ forall i, i < 9 -> get b i = None ->
         exists z,
           fst (minimax aiPlayer
                  (assign b i (Mark (if m then aiPlayer else humanOf aiPlayer)))
                  (d + 1)%Z (negb m)) = Fin z
           /\ if m then (z <= r)%Z else (r <= z)%Z.
Proof.
  intros Hb Hw Hfull.
  rewrite minimax_unfold by (by apply board9_solid). cbn [fst].
  unfold minimaxBody. rewrite Hw, Hfull. cbn [cell_eqb].
  rewrite fold_mergeMove.
  set (child := fun i =>
         fst (minimax aiPlayer
                (assign b i (Mark (if m then aiPlayer else humanOf aiPlayer)))
                (d + 1)%Z (negb m))).
  change (fun i => fst (minimax aiPlayer
                          (assign b i (Mark (if m then aiPlayer else humanOf aiPlayer)))
                          (d + 1)%Z (negb m))) with child.
  set (kids := map child _).
  assert (forall i, i < 9 -> get b i = None -> exists z, child i = Fin z) as Hfin.
  { intros i Hi Hget. eapply minimax_finite; [|done]. by apply board9_assign. }
  assert (forall c, c ∈ kids <-> exists i, i < 9 /\ get b i = None /\ c = child i)
    as Hkids.
  { intros c. unfold kids. rewrite list_elem_of_fmap. split.
    - intros (i & -> & [Hget Hi%elem_of_indices]%list_elem_of_filter). by exists i.
    - intros (i & Hi & Hget & ->). exists i. split; [done|].
      apply list_elem_of_filter. split; [done|]. by apply elem_of_indices. }
  destruct (board9_not_full b Hb Hfull) as (i0 & Hi0 & Hget0).
  destruct (Hfin i0 Hi0 Hget0) as [z0 Hz0].
  assert (Fin z0 ∈ kids) as Hin0 by (apply Hkids; exists i0; by rewrite Hz0).
  destruct m.
  - destruct (fold_num_max kids NegInf) as (Hsrc & _ & Hall).
    destruct Hsrc as [Heq|Hin].
    { specialize (Hall _ Hin0). by rewrite Heq in Hall. }
    pose proof Hin as (i & Hi & Hget & Hr)%Hkids.
    destruct (Hfin i Hi Hget) as [r Hri]. rewrite Hr, Hri in *.
    exists r. split; [done|]. split; [by exists i|].
    intros j Hj Hgetj. destruct (Hfin j Hj Hgetj) as [z Hz].
    exists z. split; [done|]. apply num_le_Fin. apply Hall.
    apply Hkids. exists j. by rewrite Hz.
  - destruct (fold_num_min kids PosInf) as (Hsrc & _ & Hall).
    destruct Hsrc as [Heq|Hin].
    { specialize (Hall _ Hin0). by rewrite Heq in Hall. }
    pose proof Hin as (i & Hi & Hget & Hr)%Hkids.
    destruct (Hfin i Hi Hget) as [r Hri]. rewrite Hr, Hri in *.
    exists r. split; [done|]. split; [by exists i|].
    intros j Hj Hgetj. destruct (Hfin j Hj Hgetj) as [z Hz].
    exists z. split; [done|]. apply num_le_Fin. apply Hall.
    apply Hkids. exists j. by rewrite Hz.
Qed.

Lemma emptyCount_le (b : array) : emptyCount b <= 9.
Proof.
  unfold emptyCount. etrans; [apply length_filter|]. by unfold indices; rewrite length_seq.
Qed.

(** Scores count plies: a score is 0, or 10 less the depth at which the
    computer completes a line, or that depth less 10 for a line of the
    human. *)
Lemma minimax_range_n n : forall (b : array) d m,
  board9 b -> emptyCount b = n ->
  exists z k,
    fst (minimax aiPlayer b d m) = Fin z /\ k <= n
    /\ (z = 0%Z
        \/ (z = (10 - d - Z.of_nat k)%Z
            /\ (k = 0 -> fst (calculateWinner b) = Some aiPlayer))
        \/ (z = (d + Z.of_nat k - 10)%Z
            /\ (k = 0 -> fst (calculateWinner b) = Some (humanOf aiPlayer)))).
Proof.
  induction n as [|n IH]; intros b d m Hb Hn;
    destruct (minimax_terminal b d m Hb) as (Hai & Hhu & Hdraw);
    (destruct (fst (calculateWinner b)) as [w|] eqn:Hw;
     [destruct (decide (w = aiPlayer)) as [->|Hne];
      [exists (10 - d)%Z, 0; split; [by apply Hai|]; split; [lia|];
       right; left; split; [lia|done]
      |assert (w = humanOf aiPlayer) as -> by (by destruct w, aiPlayer);
       exists (d - 10)%Z, 0; split; [by apply Hhu|]; split; [lia|];
       right; right; split; [lia|done]]
     |]);
    (destruct (every b) eqn:Hfull;
     [exists 0%Z, 0; split; [by apply Hdraw|]; split; [lia|]; by left|]).
  - destruct (board9_not_full b Hb Hfull) as (i & Hi & Hget).
    pose proof (emptyCount_assign b i aiPlayer Hi Hget). lia.
  - destruct (minimax_node b d m Hb Hw Hfull) as (r & Hr & (i & Hi & Hget & Hchild) & _).
    destruct (IH (assign b i (Mark (if m then aiPlayer else humanOf aiPlayer)))
                (d + 1)%Z (negb m)) as (z & k & Hz & Hk & Hcases).
    { by apply board9_assign. }
    { pose proof (emptyCount_assign b i (if m then aiPlayer else humanOf aiPlayer) Hi Hget).
      lia. }
    rewrite Hchild in Hz. injection Hz as <-.
    exists r, (S k). split; [done|]. split; [lia|].
    destruct Hcases as [->|[[-> _]|[-> _]]].
    + by left.
    + right. left. split; [lia|done].
    + right. right. split; [lia|done].
Qed.

(** The move [computeAIMove] settles on: an empty cell no other empty cell
    outscores, and which outscores every empty cell before it. *)
Lemma computeAIMove_choice (b : array) :
  board9 b -> (exists i, i < 9 /\ get b i = None) ->
  exists mv,
    computeAIMove b aiPlayer = (Z.of_nat mv, b)
    /\ mv < 9 /\ get b mv = None
    /\ (forall j, j < 9 -> get b j = None ->
         num_gt (moveScore aiPlayer b j) (moveScore aiPlayer b mv) = false)
    /\ (forall j, j < mv -> get b j = None ->
         num_gt (moveScore aiPlayer b mv) (moveScore aiPlayer b j) = true).
Proof.
  intros Hb (i0 & Hi0 & Hget0).
  rewrite computeAIMove_unfold by (by apply board9_solid). unfold indices.
  destruct (pickMove_first_best (moveScore aiPlayer b) b 9 0 NegInf (-1)%Z)
    as [[_ Hall]|(i & Hi & Hgi & -> & _ & Hall & Hbefore)].
  - specialize (Hall i0 ltac:(lia) Hget0).
    destruct (minimax_finite aiPlayer _ (assign b i0 (Mark aiPlayer)) 0%Z false
                ltac:(by apply board9_assign) eq_refl) as [z Hz].
    unfold moveScore in Hall. by rewrite Hz in Hall.
  - exists i. cbn [snd].
    assert ((Z.of_nat i =? -1)%Z = false) as -> by (apply Z.eqb_neq; lia).
    split; [done|]. split; [lia|]. split; [done|]. split.
    + intros j Hj Hgj. apply Hall; [lia|done].
    + intros j Hj Hgj. apply Hbefore; [lia|done].
Qed.

End Scoring.

(** X10. Scores count plies: on every board the minimax score called at
    depth [d] is 0, or [10 - (d + k)], or [(d + k) - 10], where [k] is at most
    the number of empty cells (itself at most 9); [k = 0] only when the board
    already has the line of the computer, respectively of the human. *)
Theorem minimax_counts_plies (aiPlayer : player) (board : array) (depth : Z) (isMax : bool) :
  board9 board ->
  exists z k,
    fst (minimax aiPlayer board depth isMax) = Fin z
    /\ k <= emptyCount board <= 9
    /\ (z = 0%Z
        \/ (z = (10 - (depth + Z.of_nat k))%Z
            /\ (k = 0 -> fst (calculateWinner board) = Some aiPlayer))
        \/ (z = (depth + Z.of_nat k - 10)%Z
            /\ (k = 0 -> fst (calculateWinner board) = Some (humanOf aiPlayer)))).
Proof.
  intros Hb.
  destruct (minimax_range_n aiPlayer _ board depth isMax Hb eq_refl)
    as (z & k & Hz & Hk & Hcases).
  exists z, k. split; [done|]. split; [split; [done|apply emptyCount_le]|].
  destruct Hcases as [->|[[-> Hw]|[-> Hw]]].
  - by left.
  - right. left. split; [lia|done].
  - right. right. split; [lia|done].
Qed.

Lemma minimax_counts_plies_witness :
  board9 rowsBoard
  /\ exists z k,
       fst (minimax O rowsBoard 0%Z true) = Fin z
       /\ k <= emptyCount rowsBoard <= 9
       /\ (z = 0%Z
           \/ (z = (10 - (0 + Z.of_nat k))%Z
               /\ (k = 0 -> fst (calculateWinner rowsBoard) = Some O))
           \/ (z = (0 + Z.of_nat k - 10)%Z
               /\ (k = 0 -> fst (calculateWinner rowsBoard) = Some (humanOf O)))).
Proof.
  split; [reflexivity|].
  exact (minimax_counts_plies O rowsBoard 0%Z true eq_refl).
Defined.

Section WinningMove.

Variable aiPlayer : player.
Variable b : array.
Hypothesis Hb : board9 b.




End WinningMove.



Section Blocking.

Variable aiPlayer : player.
Variable b : array.
Variable j : nat.

Hypothesis Hb : board9 b.
Hypothesis Hw : fst (calculateWinner b) = None.
Hypothesis Hnowin : forall i, ~ winsAt b aiPlayer i.
Hypothesis Hthreat : winsAt b (humanOf aiPlayer) j.
Hypothesis Huniq : forall k, winsAt b (humanOf aiPlayer) k -> k = j.

Lemma ai_move_no_winner i :
  i < 9 -> get b i = None ->
  fst (calculateWinner (assign b i (Mark aiPlayer))) = None.
Proof.
  intros Hi Hget. destruct (winner_after_move b i aiPlayer Hw Hget) as [|Hwin]; [done|].
  by destruct (Hnowin i).
Qed.

(** After any other move of the computer the human completes the line at
    [j]. *)
Lemma threat_stays i :
  i < 9 -> get b i = None -> i <> j ->
  fst (calculateWinner (assign (assign b i (Mark aiPlayer)) j (Mark (humanOf aiPlayer)))) = Some (humanOf aiPlayer).
Proof.
  intros Hi Hget Hij. destruct Hthreat as (Hj & Hgj & Hwj).
  assert (get (assign b i (Mark aiPlayer)) j = None) as Hgj'
    by (by rewrite get_assign_ne).
  apply ownsLine_winner.
  - destruct (winner_owner _ _ Hwj) as (l & Hl & Ha & Hb' & Hc).
    exists l. split; [done|].
    assert (forall c, get (assign b j (Mark (humanOf aiPlayer))) c = Some (humanOf aiPlayer) ->
                      get (assign (assign b i (Mark aiPlayer)) j (Mark (humanOf aiPlayer))) c
                      = Some (humanOf aiPlayer)) as Hcell.
    { intros c. destruct (decide (j = c)) as [->|Hjc].
      - by rewrite !get_assign_eq.
      - rewrite !get_assign_ne by done. intros Hc'.
        rewrite get_assign_ne; [done|]. intros ->. congruence. }
    repeat split; by apply Hcell.
  - intros l Hl Hown.
    replace (humanOf (humanOf aiPlayer)) with aiPlayer in Hown by (by destruct aiPlayer).
    apply ownsLine_assign_other in Hown; [|done|by destruct aiPlayer].
    by apply (winner_none _ l aiPlayer (ai_move_no_winner i Hi Hget) Hl) in Hown.
Qed.

Lemma depth1_floor (c : array) m :
  board9 c ->
  exists z, fst (minimax aiPlayer c 1%Z m) = Fin z /\ (-9 <= z)%Z
            /\ (fst (calculateWinner c) <> Some (humanOf aiPlayer) -> (-8 <= z)%Z).
Proof.
  intros Hc.
  destruct (minimax_range_n aiPlayer _ c 1%Z m Hc eq_refl) as (z & k & Hz & Hk & Hcases).
  pose proof (emptyCount_le c).
  exists z. split; [done|].
  destruct Hcases as [->|[[-> _]|[-> Hk0]]]; [lia|lia|].
  split; [lia|]. intros Hno. destruct k as [|k]; [|lia]. by destruct Hno; apply Hk0.
Qed.

Lemma nonblock_score i :
  i < 9 -> get b i = None -> i <> j -> moveScore aiPlayer b i = Fin (-9)%Z.
Proof.
  intros Hi Hget Hij. destruct Hthreat as (Hj & Hgj & _). unfold moveScore.
  set (bi := assign b i (Mark aiPlayer)).
  assert (board9 bi) as Hbi by (by apply board9_assign).
  assert (get bi j = None) as Hgj' by (subst bi; by rewrite get_assign_ne).
  assert (every bi = false) as Hfull.
  { destruct (every bi) eqn:Hfull; [|done].
    destruct (board9_full bi j Hbi Hfull Hj). congruence. }
  destruct (minimax_node aiPlayer bi 0%Z false Hbi (ai_move_no_winner i Hi Hget) Hfull)
    as (r & Hr & (k & Hk & Hgk & Hchild) & Hall).
  rewrite Hr. f_equal. cbn [negb] in *. change (0 + 1)%Z with 1%Z in *.
  destruct (Hall j Hj Hgj') as (z & Hz & Hle).
  destruct (minimax_terminal aiPlayer (assign bi j (Mark (humanOf aiPlayer))) 1%Z true)
    as (_ & Hhu & _); [by apply board9_assign|].
  rewrite Hhu in Hz by (by apply threat_stays). injection Hz as <-.
  destruct (depth1_floor (assign bi k (Mark (humanOf aiPlayer))) true)
    as (z & Hz & Hfloor & _); [by apply board9_assign|].
  rewrite Hchild in Hz. injection Hz as <-. lia.
Qed.

Lemma block_score : exists z, moveScore aiPlayer b j = Fin z /\ (-8 <= z)%Z.
Proof.
  destruct Hthreat as (Hj & Hgj & _). unfold moveScore.
  set (bj := assign b j (Mark aiPlayer)).
  assert (board9 bj) as Hbj by (by apply board9_assign).
  pose proof (ai_move_no_winner j Hj Hgj) as Hwj. fold bj in Hwj.
  destruct (every bj) eqn:Hfull.
  - exists 0%Z. split; [|lia].
    by destruct (minimax_terminal aiPlayer bj 0%Z false Hbj) as (_ & _ & ->).
  - destruct (minimax_node aiPlayer bj 0%Z false Hbj Hwj Hfull)
      as (r & Hr & (k & Hk & Hgk & Hchild) & _).
    exists r. split; [done|]. cbn [negb] in *. change (0 + 1)%Z with 1%Z in *.
    destruct (depth1_floor (assign bj k (Mark (humanOf aiPlayer))) true)
      as (z & Hz & _ & Hfloor); [by apply board9_assign|].
    rewrite Hchild in Hz. injection Hz as <-. apply Hfloor.
    assert (k <> j) as Hkj.
    { intros ->. subst bj. by rewrite get_assign_eq in Hgk. }
    assert (get b k = None) as Hgk' by (subst bj; by rewrite get_assign_ne in Hgk).
    intros Hwin. apply Hkj, Huniq. split; [done|]. split; [done|].
    apply ownsLine_winner.
    + destruct (winner_owner _ _ Hwin) as (l & Hl & Ha & Hb' & Hc).
      exists l. split; [done|].
      assert (forall c, get (assign bj k (Mark (humanOf aiPlayer))) c = Some (humanOf aiPlayer) ->
                        get (assign b k (Mark (humanOf aiPlayer))) c = Some (humanOf aiPlayer)) as Hcell.
      { intros c. destruct (decide (k = c)) as [->|Hkc].
        - by rewrite !get_assign_eq.
        - rewrite !get_assign_ne by done. subst bj.
          destruct (decide (j = c)) as [->|Hjc].
          + rewrite get_assign_eq. intros [= Heq]. by destruct aiPlayer.
          + by rewrite get_assign_ne. }
      repeat split; by apply Hcell.
    + intros l Hl Hown.
      replace (humanOf (humanOf aiPlayer)) with aiPlayer in Hown by (by destruct aiPlayer).
      apply ownsLine_assign_other in Hown; [|done|by destruct aiPlayer].
      by apply (winner_none b l aiPlayer Hw Hl) in Hown.
Qed.

Lemma block_chosen : computeAIMove b aiPlayer = (Z.of_nat j, b).
Proof.
  pose proof Hthreat as (Hj & Hgj & _).
  destruct (computeAIMove_choice aiPlayer b Hb) as (mv & Hmv & Hlt & Hget & Hmax & _).
  { by exists j. }
  destruct (decide (mv = j)) as [->|Hne]; [done|].
  exfalso. specialize (Hmax j Hj Hgj).
  destruct block_score as (z & Hz & Hfloor).
  rewrite Hz, (nonblock_score mv Hlt Hget Hne) in Hmax.
  apply num_le_Fin in Hmax. lia.
Qed.

End Blocking.

(** X12. The engine blocks: on a board without a winner, when no empty cell
    wins at once for the computer and exactly one empty cell would complete
    a line for the human, [computeAIMove] returns that cell. *)
Theorem engine_blocks (aiPlayer : player) (board : array) (j : nat) :
  board9 board ->
  fst (calculateWinner board) = None ->
  (forall i, ~ winsAt board aiPlayer i) ->
  winsAt board (humanOf aiPlayer) j ->
  (forall k, winsAt board (humanOf aiPlayer) k -> k = j) ->
  computeAIMove board aiPlayer = (Z.of_nat j, board).
Proof. apply block_chosen. Qed.

Lemma engine_blocks_witness :
  board9 threatBoard /\ computeAIMove threatBoard O = (2%Z, threatBoard).
Proof.
  split; [reflexivity|].
  apply (engine_blocks O threatBoard 2); [reflexivity|reflexivity| | |].
  - intros i (Hi & Hget & Hwin).
    do 9 (destruct i as [|i]; [vm_compute in Hget, Hwin; congruence|]). lia.
  - split; [lia|]. split; reflexivity.
  - intros k (Hk & Hget & Hwin).
    do 9 (destruct k as [|k]; [vm_compute in Hget, Hwin; congruence|]). lia.
Defined.

(** X13. A draw is a full board without a line: on a board, [isDraw] holds
    exactly when each of the nine cells holds a symbol and no player holds
    one of the eight lines; so a board is never both a draw and a win, and
    while neither holds some cell is empty. *)
Theorem isDraw_full_no_line (board : array) :
  board9 board ->
  (isDraw board = true
   <-> (forall i, i < 9 -> exists p, get board i = Some p)
       /\ (forall l p, l ∈ lines -> ~ ownsLine board p l))
  /\ (isDraw board = true -> fst (calculateWinner board) = None)
  /\ (gameOn board = true -> exists i, i < 9 /\ get board i = None).
Proof.
  intros Hb. unfold gameOn, isDraw. split; [|split].
  - split.
    + intros [Hfull Hw]%andb_true_iff. apply negb_true_iff in Hw.
      assert (fst (calculateWinner board) = None) as Hnone
        by (by destruct (fst (calculateWinner board))).
      split; [intros i Hi; by apply board9_full|].
      intros l p Hl. by apply winner_none.
    + intros [Hcells Hlines]. apply andb_true_iff. split.
      * destruct (every board) eqn:Hfull; [done|].
        destruct (board9_not_full board Hb Hfull) as (i & Hi & Hget).
        destruct (Hcells i Hi). congruence.
      * destruct (fst (calculateWinner board)) as [p|] eqn:Hw; [|done].
        destruct (winner_owner board p Hw) as (l & Hl & Hown).
        by apply Hlines in Hown.
  - intros [_ Hw]%andb_true_iff. by destruct (fst (calculateWinner board)).
  - intros [Hw Hd]%andb_true_iff. apply negb_true_iff in Hd.
    destruct (fst (calculateWinner board)); [done|]. cbn in Hd.
    rewrite andb_true_r in Hd. by apply board9_not_full.
Qed.

Lemma isDraw_full_no_line_witness :
  board9 fullBoard /\ isDraw fullBoard = true
  /\ forall l p, l ∈ lines -> ~ ownsLine fullBoard p l.
Proof.
  split; [reflexivity|]. split; [reflexivity|].
  exact (proj2 (proj1 (proj1 (isDraw_full_no_line fullBoard eq_refl)) eq_refl)).
Defined.

(** X14. An accepted move: in a state where the game-over effect has run
    and the game goes on, a click on an empty cell, unless it is a manual
    click on O's turn in computer mode, puts the symbol of the player to move
    on that cell, leaves every other cell as it was, passes the turn, keeps
    the mode, and sets status and score as the new board commands. *)
Theorem click_places_mark (s : App.State) (i : nat) :
  settled s -> terminal s = false ->
  get (App.squares s) i = None ->
  (App.mode s = App.pvp \/ App.xIsNext s = true) ->
  exists s',
    App.dispatch s (App.Click i) = Some s'
    /\ get (App.squares s') i = Some (View.turn s)
    /\ (forall j, j <> i -> get (App.squares s') j = get (App.squares s) j)
    /\ App.xIsNext s' = negb (App.xIsNext s)
    /\ App.mode s' = App.mode s
    /\ App.status s' = statusOf (App.squares s')
    /\ App.score s' = scoreAfter (App.squares s') (App.score s).
Proof.
  intros Hs Ht Hget Hturn.
  assert (App.handleSquareClick s i false
          = [App.setSquares (assign (App.squares s) i (Mark (View.turn s)));
             App.setXIsNext (negb (App.xIsNext s))]) as Hupd.
  { apply terminal_false in Ht. unfold settled in Hs. rewrite Ht in Hs.
    unfold statusOf in Ht. unfold App.handleSquareClick, App.winner, slice.
    rewrite Hget, Hs.
    destruct (fst (calculateWinner (App.squares s))); [done|]. cbn.
    unfold View.turn. destruct Hturn as [-> | ->]; [done|]. by destruct (App.mode s). }
  eexists. split.
  { unfold App.dispatch. cbn [App.handle]. cbv zeta. rewrite Hupd.
    cbn [App.replacesSquares existsb orb]. by rewrite commit_gameOverEffect. }
  cbn. rewrite get_assign_eq. split; [done|]. split; [|done].
  intros j Hj. by rewrite get_assign_ne.
Qed.

Lemma click_places_mark_witness :
  exists s',
    App.dispatch centreTaken (App.Click 0) = Some s'
    /\ get (App.squares s') 0 = Some O
    /\ App.xIsNext s' = true.
Proof.
  destruct (click_places_mark centreTaken 0 eq_refl eq_refl eq_refl (or_introl eq_refl))
    as (s' & Hd & Hget & _ & Hturn & _).
  exists s'. split; [exact Hd|]. split; [exact Hget|exact Hturn].
Defined.

(** X15. The buttons around the board: over the move attempts of one game,
    the mode selector is disabled exactly when the game is over, and once the
    game is over the "Reset Scores" button is enabled, since the game has
    been counted. *)
Theorem controls_follow_game (s : App.State) (evs : list App.event) (s' : App.State) :
  settled s -> terminal s = false -> Forall isMove evs ->
  App.run s evs = Some s' ->
  View.modeDisabled s' = terminal s'
  /\ (terminal s' = true -> View.disableReset s' = false).
Proof.
  intros Hs Ht Hevs Hrun.
  pose proof (settled_run evs _ _ Hs Hrun) as Hs'.
  pose proof (run_scoreAfter evs _ _ Hs Ht Hevs Hrun) as Hscore.
  split.
  - unfold View.modeDisabled, terminal. by rewrite Hs'.
  - unfold View.disableReset, terminal, statusOf, scoreAfter in *. rewrite Hscore.
    destruct (fst (calculateWinner (App.squares s'))) as [[|]|].
    + intros _. cbn. apply andb_false_iff. left. apply andb_false_iff. left.
      apply N.eqb_neq. lia.
    + intros _. cbn. apply andb_false_iff. left. apply andb_false_iff. right.
      apply N.eqb_neq. lia.
    + destruct (isDraw (App.squares s')); [|done].
      intros _. cbn. apply andb_false_iff. right. apply N.eqb_neq. lia.
Qed.

Lemma controls_follow_game_witness :
  exists s',
    App.run (App.initial noScore) topRowGame = Some s'
    /\ View.modeDisabled s' = true /\ View.disableReset s' = false.
Proof.
  eexists. split; [vm_compute; reflexivity|].
  match goal with
  | |- View.modeDisabled ?t = _ /\ _ =>
      pose proof (controls_follow_game (App.initial noScore) topRowGame t
                    eq_refl eq_refl ltac:(repeat constructor)
                    ltac:(vm_compute; reflexivity)) as [Hmode Hreset]
  end.
  split; [exact Hmode|exact (Hreset eq_refl)].
Defined.

(** ** Marks on the board *)

Section BoardMarks.

Import App.





End BoardMarks.



